(** * Prefix registry and range scan of the badger key space

    A shallow embedding of [src/main.go]: the [DBPrefixes] declarations,
    [GetPrefixes] / [getPrefixIdValue] (the prefix registry) and
    [_enumerateKeysForPrefixWithTxn] (the range scan), together with the
    part of the libraries they call (bytes, encoding/json, reflect and the
    badger iterator) that their behaviour depends on. *)

From Stdlib Require Import ZArith NArith Lia Bool Sorted.
From Stdlib Require Import Strings.Byte Strings.Ascii Strings.String.
From stdpp Require Import base list sorting strings gmap.

Local Open Scope nat_scope.

(** ** Byte sequences (Go's [[]byte] and package [bytes]) *)

Abbreviation bytes := (list byte).

#[global] Instance byte_eq_dec : EqDecision byte := Byte.byte_eq_dec.

(** [bytes.Compare]: unsigned, lexicographic, left to right. *)
Fixpoint bytes_Compare (a b : bytes) : comparison :=
  match a, b with
  | [], [] => Eq
  | [], _ :: _ => Lt
  | _ :: _, [] => Gt
  | x :: a', y :: b' =>
      match N.compare (Byte.to_N x) (Byte.to_N y) with
      | Eq => bytes_Compare a' b'
      | c => c
      end
  end.

Definition bytes_Equal (a b : bytes) : bool := bool_decide (a = b).

(** [bytes.HasPrefix(s, prefix)]:
    [len(s) >= len(prefix) && Equal(s[:len(prefix)], prefix)]. *)
Definition bytes_HasPrefix (s pfx : bytes) : bool :=
  (length pfx <=? length s) && bytes_Equal (take (length pfx) s) pfx.

(** [make([]byte, n)]: [n] zero bytes. *)
Definition make_bytes (n : nat) : bytes := replicate n Byte.x00.

(** The builtin [copy(dst, src)]: overwrites the first
    [min (len dst) (len src)] elements of [dst]. *)
Definition copy_bytes (dst src : bytes) : bytes :=
  take (length dst) src ++ drop (length src) dst.

(** ** Slices of slices, with Go's nil slice kept apart from an empty one *)

Abbreviation slice A := (option (list A)).

Definition nil_slice {A} : slice A := None.

Definition elems {A} (s : slice A) : list A :=
  match s with
  | None => []
  | Some l => l
  end.

Definition len {A} (s : slice A) : nat := length (elems s).

(** The builtin [append(s, x)]: the result is never nil. *)
Definition append {A} (s : slice A) (x : A) : slice A := Some (elems s ++ [x]).

(** ** Errors *)

Inductive error : Type :=
| Error (msg : string).

(** ** The store as the scan sees it

    A record of the store: its key, its value, and whether reading the value
    of this record fails ([Item.ValueCopy] returns a non-nil error). *)
Record Item : Type := mkItem {
  Key : bytes;
  Value : bytes;
  readErr : option error
}.

(** [Item.ValueCopy(nil)] *)
Definition ValueCopy (item : Item) : bytes * option error :=
  match readErr item with
  | Some err => ([], Some err)
  | None => (Value item, None)
  end.

(** A read transaction: the records of its snapshot in the order a forward
    iterator visits them, and the number of iterators open on it. *)
Record Txn : Type := mkTxn {
  snapshot : list Item;
  numIterators : Z
}.

Definition key_lt (a b : Item) : Prop := bytes_Compare (Key a) (Key b) = Lt.

(** The store keeps one record per key and iterates in ascending key
    order. *)
Definition Txn_ordered (txn : Txn) : Prop := Sorted key_lt (snapshot txn).

(** [Txn.Set] on the snapshot: insert in key order, replacing the record of an
    equal key (the write path, used to populate stores). *)
Fixpoint store_Set (key value : bytes) (items : list Item) : list Item :=
  match items with
  | [] => [mkItem key value None]
  | i :: rest =>
      match bytes_Compare key (Key i) with
      | Lt => mkItem key value None :: i :: rest
      | Eq => mkItem key value None :: rest
      | Gt => i :: store_Set key value rest
      end
  end.

(** ** The iterator *)

Record Iterator : Type := mkIterator {
  source : list Item;   (* the snapshot it iterates over *)
  cursor : list Item    (* the record under the cursor and those after it *)
}.

(** [txn.NewIterator(opts)] *)
Definition NewIterator (txn : Txn) : Iterator * Txn :=
  (mkIterator (snapshot txn) [],
   mkTxn (snapshot txn) (numIterators txn + 1)).

(** [Iterator.Close()] *)
Definition Close (it : Iterator) (txn : Txn) : Txn :=
  mkTxn (snapshot txn) (numIterators txn - 1).

(** Skip the records whose key is smaller than [key]. *)
Fixpoint seek_from (key : bytes) (items : list Item) : list Item :=
  match items with
  | [] => []
  | i :: rest =>
      match bytes_Compare (Key i) key with
      | Lt => seek_from key rest
      | _ => i :: rest
      end
  end.

(** [Iterator.Seek(key)]: position the cursor at the smallest key greater
    than or equal to [key]. *)
Definition Seek (it : Iterator) (key : bytes) : Iterator :=
  mkIterator (source it) (seek_from key (source it)).

(** [Iterator.ValidForPrefix(prefix)] *)
Definition ValidForPrefix (it : Iterator) (pfx : bytes) : bool :=
  match cursor it with
  | [] => false
  | item :: _ => bytes_HasPrefix (Key item) pfx
  end.

(** [Iterator.Next()] *)
Definition Next (it : Iterator) : Iterator :=
  mkIterator (source it) (tail (cursor it)).

(** ** [_enumerateKeysForPrefixWithTxn] *)

(** What the function returns: [(_keysFound, _valsFound, _err)]. *)
Definition ScanResult : Type := slice bytes * slice bytes * option error.

(** The body of the [for] loop, from the condition on; the argument is the
    cursor of the iterator, whose tail is the cursor after [Next()]. *)
Fixpoint scan_loop (pfx : bytes) (cur : list Item)
    (keysFound valsFound : slice bytes) : ScanResult :=
  match cur with
  | [] => (keysFound, valsFound, None)
  | item :: rest =>
      if bytes_HasPrefix (Key item) pfx then
        let key := Key item in
        let keyCopy := copy_bytes (make_bytes (length key)) key in
        match ValueCopy item with
        | (_, Some err) => (nil_slice, nil_slice, Some err)
        | (valCopy, None) =>
            scan_loop pfx rest (append keysFound keyCopy) (append valsFound valCopy)
        end
      else (keysFound, valsFound, None)
  end.

Definition _enumerateKeysForPrefixWithTxn (txn : Txn) (dbPrefix : bytes)
    : ScanResult * Txn :=
  let keysFound : slice bytes := nil_slice in
  let valsFound : slice bytes := nil_slice in
  let '(nodeIterator, txn1) := NewIterator txn in
  let pfx := dbPrefix in
  let nodeIterator := Seek nodeIterator pfx in
  let result := scan_loop pfx (cursor nodeIterator) keysFound valsFound in
  (* defer nodeIterator.Close() *)
  (result, Close nodeIterator txn1).

(** ** The prefix registry *)

(** What a call does: it returns a value or it panics. *)
Inductive outcome (A : Type) : Type :=
| Returns (a : A)
| Panics (e : error).
Arguments Returns {A} a.
Arguments Panics {A} e.

Definition is_panic {A} (o : outcome A) : Prop :=
  match o with
  | Panics _ => True
  | Returns _ => False
  end.

(** A field of a struct type as package [reflect] shows it: its name and its
    tag, the tag as the list of its key and value pairs. *)
Record StructField : Type := mkField {
  Name : string;
  Tag : list (string * string)
}.

(** [StructTag.Get(key)]: the value of the first pair with that key, the
    empty string when there is none. *)
Fixpoint Tag_Get (tag : list (string * string)) (key : string) : string :=
  match tag with
  | [] => EmptyString
  | (k, v) :: rest => if String.eqb k key then v else Tag_Get rest key
  end.

(** [type DBPrefixes struct], in declaration order. *)
Definition DBPrefixes : list StructField :=
  [
    mkField "PrefixBlockHashToBlock"
      [("prefix_id", "[0]"); ("core_state", "true")];
    mkField "PrefixHeightHashToNodeInfo"
      [("prefix_id", "[1]")];
    mkField "PrefixBitcoinHeightHashToNodeInfo"
      [("prefix_id", "[2]")];
    mkField "PrefixBestDeSoBlockHash"
      [("prefix_id", "[3]")];
    mkField "PrefixBestBitcoinHeaderHash"
      [("prefix_id", "[4]")];
    mkField "PrefixUtxoKeyToUtxoEntry"
      [("prefix_id", "[5]"); ("is_state", "true")];
    mkField "PrefixPubKeyUtxoKey"
      [("prefix_id", "[7]"); ("is_state", "true")];
    mkField "PrefixUtxoNumEntries"
      [("prefix_id", "[8]"); ("is_state", "true")];
    mkField "PrefixBlockHashToUtxoOperations"
      [("prefix_id", "[9]"); ("core_state", "true")];
    mkField "PrefixNanosPurchased"
      [("prefix_id", "[10]"); ("is_state", "true")];
    mkField "PrefixUSDCentsPerBitcoinExchangeRate"
      [("prefix_id", "[27]"); ("is_state", "true")];
    mkField "PrefixGlobalParams"
      [("prefix_id", "[40]"); ("is_state", "true")];
    mkField "PrefixBitcoinBurnTxIDs"
      [("prefix_id", "[11]"); ("is_state", "true")];
    mkField "PrefixPublicKeyTimestampToPrivateMessage"
      [("prefix_id", "[12]"); ("is_state", "true"); ("core_state", "true")];
    mkField "PrefixTransactionIndexTip"
      [("prefix_id", "[14]"); ("is_txindex", "true")];
    mkField "PrefixTransactionIDToMetadata"
      [("prefix_id", "[15]"); ("is_txindex", "true")];
    mkField "PrefixPublicKeyIndexToTransactionIDs"
      [("prefix_id", "[16]"); ("is_txindex", "true")];
    mkField "PrefixPublicKeyToNextIndex"
      [("prefix_id", "[42]"); ("is_txindex", "true")];
    mkField "PrefixPostHashToPostEntry"
      [("prefix_id", "[17]"); ("is_state", "true"); ("core_state", "true")];
    mkField "PrefixPosterPublicKeyPostHash"
      [("prefix_id", "[18]"); ("is_state", "true")];
    mkField "PrefixTstampNanosPostHash"
      [("prefix_id", "[19]"); ("is_state", "true")];
    mkField "PrefixCreatorBpsPostHash"
      [("prefix_id", "[20]"); ("is_state", "true")];
    mkField "PrefixMultipleBpsPostHash"
      [("prefix_id", "[21]"); ("is_state", "true")];
    mkField "PrefixCommentParentStakeIDToPostHash"
      [("prefix_id", "[22]"); ("is_state", "true")];
    mkField "PrefixPKIDToProfileEntry"
      [("prefix_id", "[23]"); ("is_state", "true"); ("core_state", "true")];
    mkField "PrefixProfileUsernameToPKID"
      [("prefix_id", "[25]"); ("is_state", "true")];
    mkField "PrefixCreatorDeSoLockedNanosCreatorPKID"
      [("prefix_id", "[32]"); ("is_state", "true")];
    mkField "PrefixStakeIDTypeAmountStakeIDIndex"
      [("prefix_id", "[26]"); ("is_state", "true")];
    mkField "PrefixFollowerPKIDToFollowedPKID"
      [("prefix_id", "[28]"); ("is_state", "true"); ("core_state", "true")];
    mkField "PrefixFollowedPKIDToFollowerPKID"
      [("prefix_id", "[29]"); ("is_state", "true")];
    mkField "PrefixLikerPubKeyToLikedPostHash"
      [("prefix_id", "[30]"); ("is_state", "true"); ("core_state", "true")];
    mkField "PrefixLikedPostHashToLikerPubKey"
      [("prefix_id", "[31]"); ("is_state", "true")];
    mkField "PrefixHODLerPKIDCreatorPKIDToBalanceEntry"
      [("prefix_id", "[33]"); ("is_state", "true")];
    mkField "PrefixCreatorPKIDHODLerPKIDToBalanceEntry"
      [("prefix_id", "[34]"); ("is_state", "true"); ("core_state", "true")];
    mkField "PrefixPosterPublicKeyTimestampPostHash"
      [("prefix_id", "[35]"); ("is_state", "true")];
    mkField "PrefixPublicKeyToPKID"
      [("prefix_id", "[36]"); ("is_state", "true"); ("core_state", "true")];
    mkField "PrefixPKIDToPublicKey"
      [("prefix_id", "[37]"); ("is_state", "true")];
    mkField "PrefixMempoolTxnHashToMsgDeSoTxn"
      [("prefix_id", "[38]")];
    mkField "PrefixReposterPubKeyRepostedPostHashToRepostPostHash"
      [("prefix_id", "[39]"); ("is_state", "true")];
    mkField "PrefixDiamondReceiverPKIDDiamondSenderPKIDPostHash"
      [("prefix_id", "[41]"); ("is_state", "true")];
    mkField "PrefixDiamondSenderPKIDDiamondReceiverPKIDPostHash"
      [("prefix_id", "[43]"); ("is_state", "true"); ("core_state", "true")];
    mkField "PrefixForbiddenBlockSignaturePubKeys"
      [("prefix_id", "[44]"); ("is_state", "true")];
    mkField "PrefixRepostedPostHashReposterPubKey"
      [("prefix_id", "[45]"); ("is_state", "true")];
    mkField "PrefixRepostedPostHashReposterPubKeyRepostPostHash"
      [("prefix_id", "[46]"); ("is_state", "true")];
    mkField "PrefixDiamondedPostHashDiamonderPKIDDiamondLevel"
      [("prefix_id", "[47]"); ("is_state", "true")];
    mkField "PrefixPostHashSerialNumberToNFTEntry"
      [("prefix_id", "[48]"); ("is_state", "true"); ("core_state", "true")];
    mkField "PrefixPKIDIsForSaleBidAmountNanosPostHashSerialNumberToNFTEntry"
      [("prefix_id", "[49]"); ("is_state", "true")];
    mkField "PrefixPostHashSerialNumberBidNanosBidderPKID"
      [("prefix_id", "[50]"); ("is_state", "true"); ("core_state", "true")];
    mkField "PrefixBidderPKIDPostHashSerialNumberToBidNanos"
      [("prefix_id", "[51]"); ("is_state", "true")];
    mkField "PrefixPublicKeyToDeSoBalanceNanos"
      [("prefix_id", "[52]"); ("is_state", "true"); ("core_state", "true")];
    mkField "PrefixPublicKeyBlockHashToBlockReward"
      [("prefix_id", "[53]"); ("is_state", "true")];
    mkField "PrefixPostHashSerialNumberToAcceptedBidEntries"
      [("prefix_id", "[54]"); ("is_state", "true")];
    mkField "PrefixHODLerPKIDCreatorPKIDToDAOCoinBalanceEntry"
      [("prefix_id", "[55]"); ("is_state", "true"); ("core_state", "true")];
    mkField "PrefixCreatorPKIDHODLerPKIDToDAOCoinBalanceEntry"
      [("prefix_id", "[56]"); ("is_state", "true")];
    mkField "PrefixMessagingGroupEntriesByOwnerPubKeyAndGroupKeyName"
      [("prefix_id", "[57]"); ("is_state", "true")];
    mkField "PrefixMessagingGroupMetadataByMemberPubKeyAndGroupMessagingPubKey"
      [("prefix_id", "[58]"); ("is_state", "true")];
    mkField "PrefixAuthorizeDerivedKey"
      [("prefix_id", "[59]"); ("is_state", "true"); ("core_state", "true")];
    mkField "PrefixDAOCoinLimitOrder"
      [("prefix_id", "[60]"); ("is_state", "true"); ("core_state", "true")];
    mkField "PrefixDAOCoinLimitOrderByTransactorPKID"
      [("prefix_id", "[61]"); ("is_state", "true")];
    mkField "PrefixDAOCoinLimitOrderByOrderID"
      [("prefix_id", "[62]"); ("is_state", "true")];
    mkField "PrefixUserAssociationByID"
      [("prefix_id", "[63]"); ("is_state", "true"); ("core_state", "true")];
    mkField "PrefixUserAssociationByTransactor"
      [("prefix_id", "[64]"); ("is_state", "true")];
    mkField "PrefixUserAssociationByTargetUser"
      [("prefix_id", "[65]"); ("is_state", "true")];
    mkField "PrefixUserAssociationByUsers"
      [("prefix_id", "[66]"); ("is_state", "true")];
    mkField "PrefixPostAssociationByID"
      [("prefix_id", "[67]"); ("is_state", "true"); ("core_state", "true")];
    mkField "PrefixPostAssociationByTransactor"
      [("prefix_id", "[68]"); ("is_state", "true")];
    mkField "PrefixPostAssociationByPost"
      [("prefix_id", "[69]"); ("is_state", "true")];
    mkField "PrefixPostAssociationByType"
      [("prefix_id", "[70]"); ("is_state", "true")];
    mkField "PrefixAccessGroupEntriesByAccessGroupId"
      [("prefix_id", "[71]"); ("is_state", "true"); ("core_state", "true")];
    mkField "PrefixAccessGroupMembershipIndex"
      [("prefix_id", "[72]"); ("is_state", "true"); ("core_state", "true")];
    mkField "PrefixAccessGroupMemberEnumerationIndex"
      [("prefix_id", "[73]"); ("is_state", "true")];
    mkField "PrefixGroupChatMessagesIndex"
      [("prefix_id", "[74]"); ("is_state", "true"); ("core_state", "true")];
    mkField "PrefixDmMessagesIndex"
      [("prefix_id", "[75]"); ("is_state", "true")];
    mkField "PrefixDmThreadIndex"
      [("prefix_id", "[76]"); ("is_state", "true")];
    mkField "PrefixNoncePKIDIndex"
      [("prefix_id", "[77]"); ("is_state", "true")];
    mkField "PrefixTxnHashToTxn"
      [("prefix_id", "[78]"); ("core_state", "true")];
    mkField "PrefixTxnHashToUtxoOps"
      [("prefix_id", "[79]"); ("core_state", "true")]
  ].

(** A value of a struct type whose fields are all [[]byte]: the values of
    its fields, in declaration order. *)
Abbreviation StructValue := (list (slice byte)).

(** [DBPrefixes{}]: every field is the nil slice. *)
Definition zero_value (structFields : list StructField) : StructValue :=
  replicate (length structFields) nil_slice.

(** The heap that holds the structs [GetPrefixes] allocates. *)
Abbreviation ptr := nat.
Abbreviation Heap := (gmap nat StructValue).

(** [json.Unmarshal(data, v)] for a destination [v] of type [*[]byte]:
    either the new value of the destination or the error returned. *)
Inductive UnmarshalResult : Type :=
| Decoded (v : slice byte)
| DecodeError (err : error).

Section Registry.

(** The JSON decoder in use. *)
Variable Unmarshal : string -> slice byte -> UnmarshalResult.

Definition getPrefixIdValue (structFields : StructField) : outcome (slice byte) :=
  let value := Tag_Get (Tag structFields) "prefix_id" in
  if negb (String.eqb value "-") then
    (* ref.Elem().Set(reflect.MakeSlice(fieldType, 0, 0)) *)
    let ref : slice byte := Some [] in
    if negb (String.eqb value EmptyString) && negb (String.eqb value "[]") then
      match Unmarshal value ref with
      | DecodeError err => Panics err
      | Decoded ref' => Returns ref'
      end
    else Returns ref
  else Panics (Error "prefix_id cannot be empty").

(** The [for] loop of [GetPrefixes] from index [i] on, with [n] fields
    left; [prefixes] points to the struct being filled. *)
Fixpoint GetPrefixes_loop (structFields : list StructField) (prefixes : ptr)
    (n i : nat) (h : Heap) : outcome Heap :=
  match n with
  | O => Returns h
  | S n' =>
      match structFields !! i with
      | None => Returns h
      | Some field =>
          match getPrefixIdValue field with
          | Panics e => Panics e
          | Returns prefixId =>
              (* prefixField.Set(prefixId) *)
              GetPrefixes_loop structFields prefixes n' (S i)
                (alter (fun s : StructValue => <[i := prefixId]> s) prefixes h)
          end
      end
  end.

(** [GetPrefixes] for a struct type with the given fields. *)
Definition GetPrefixes_of (structFields : list StructField) (h : Heap)
    : outcome (ptr * Heap) :=
  (* prefixes := &DBPrefixes{} *)
  let prefixes : ptr := fresh (dom h) in
  let h := <[prefixes := zero_value structFields]> h in
  match GetPrefixes_loop structFields prefixes (length structFields) 0 h with
  | Panics e => Panics e
  | Returns h' => Returns (prefixes, h')
  end.

End Registry.

(** ** The JSON decoder, on the texts a [prefix_id] tag holds

    [json.Unmarshal] into a [[]byte] is modelled on JSON texts that are an
    array of number literals or [null]s, or the literal [null], surrounded by
    white space. An element must be an unsigned integer literal that fits a
    [uint8]; an element [null] leaves the zero byte. A text that is a string
    literal (which encoding/json reads as base64) is outside the model and is
    reported as an error, as is every other text. *)

Inductive jstate : Type :=
| SBegin                                 (* before the value *)
| SArrayFirst                            (* after '[': an element or ']' *)
| SArrayValue                            (* after ',': an element *)
| SZero                                  (* after the literal 0 *)
| SNumber (n : N)                        (* inside an integer literal *)
| SNull (rest : list ascii) (top : bool) (* inside the literal null *)
| SAfterValue                            (* after an element: ',' or ']' *)
| SEnd (isnull : bool).                  (* after the value *)

Definition isSpace (c : ascii) : bool :=
  (Ascii.eqb c " " || Ascii.eqb c "009" || Ascii.eqb c "013" || Ascii.eqb c "010")%char.

Definition isDigit (c : ascii) : bool :=
  (48 <=? N_of_ascii c)%N && (N_of_ascii c <=? 57)%N.

Definition digit_val (c : ascii) : N := (N_of_ascii c - 48)%N.

(** Store a number in a [uint8] element. *)
Definition push_uint8 (n : N) (out : bytes) : option bytes :=
  match Byte.of_N n with
  | Some b => Some (out ++ [b])
  | None => None
  end.

(** What follows an element: white space, [','] or [']']. *)
Definition after_value (c : ascii) (out : bytes) : option (jstate * bytes) :=
  if isSpace c then Some (SAfterValue, out)
  else if Ascii.eqb c "," then Some (SArrayValue, out)
  else if Ascii.eqb c "]" then Some (SEnd false, out)
  else None.

(** The start of an element of the array. *)
Definition begin_element (c : ascii) (out : bytes) : option (jstate * bytes) :=
  if Ascii.eqb c "0" then Some (SZero, out)
  else if isDigit c then Some (SNumber (digit_val c), out)
  else if Ascii.eqb c "n" then Some (SNull ["u"; "l"; "l"]%char false, out)
  else None.

(** One character of the text; [None] is an error. *)
Definition json_step (st : jstate) (out : bytes) (c : ascii) : option (jstate * bytes) :=
  match st with
  | SBegin =>
      if isSpace c then Some (SBegin, out)
      else if Ascii.eqb c "[" then Some (SArrayFirst, out)
      else if Ascii.eqb c "n" then Some (SNull ["u"; "l"; "l"]%char true, out)
      else None
  | SArrayFirst =>
      if isSpace c then Some (SArrayFirst, out)
      else if Ascii.eqb c "]" then Some (SEnd false, out)
      else begin_element c out
  | SArrayValue =>
      if isSpace c then Some (SArrayValue, out)
      else begin_element c out
  | SZero =>
      match push_uint8 0 out with
      | Some out' => after_value c out'
      | None => None
      end
  | SNumber n =>
      if isDigit c then Some (SNumber (10 * n + digit_val c), out)
      else
        match push_uint8 n out with
        | Some out' => after_value c out'
        | None => None
        end
  | SNull [] _ => None
  | SNull [x] top =>
      if Ascii.eqb c x then
        if top then Some (SEnd true, out)
        else Some (SAfterValue, out ++ [Byte.x00])
      else None
  | SNull (x :: rest) top =>
      if Ascii.eqb c x then Some (SNull rest top, out) else None
  | SAfterValue => after_value c out
  | SEnd isnull =>
      if isSpace c then Some (SEnd isnull, out) else None
  end.

Fixpoint json_run (st : jstate) (out : bytes) (data : list ascii) : option (jstate * bytes) :=
  match data with
  | [] => Some (st, out)
  | c :: data' =>
      match json_step st out c with
      | Some (st', out') => json_run st' out' data'
      | None => None
      end
  end.

Definition json_Unmarshal (data : string) (v : slice byte) : UnmarshalResult :=
  match json_run SBegin [] (list_ascii_of_string data) with
  | Some (SEnd true, _) => Decoded nil_slice
  | Some (SEnd false, out) => Decoded (Some out)
  | _ => DecodeError (Error "json: cannot unmarshal into Go value of type []uint8")
  end.

(** [GetPrefixes]: the registry of the [DBPrefixes] declarations. *)
Definition GetPrefixes (h : Heap) : outcome (ptr * Heap) :=
  GetPrefixes_of json_Unmarshal DBPrefixes h.

(** The table a successful call of [GetPrefixes] leaves behind its result. *)
Definition registry_of (r : outcome (ptr * Heap)) : option StructValue :=
  match r with
  | Returns (p, h) => h !! p
  | Panics _ => None
  end.

(** ** What the scan is specified to return *)

(** The key of a record has [pfx] as its leading bytes. *)
Definition starts_with (pfx : bytes) (item : Item) : Prop :=
  pfx `prefix_of` Key item.

#[global] Instance starts_with_dec pfx item : Decision (starts_with pfx item).
Proof. unfold starts_with. apply _. Defined.

(** The records under a prefix, in store order. *)
Definition records_under (pfx : bytes) (items : list Item) : list Item :=
  filter (starts_with pfx) items.

Definition bytes_lt (a b : bytes) : Prop := bytes_Compare a b = Lt.

(** Strictly ascending in the unsigned lexicographic order. *)
Definition ascending (keys : list bytes) : Prop := StronglySorted bytes_lt keys.

(** Where a cursor over [rest] stops a scan of [pfx]: at the end of the
    store, or at a key that no longer starts with [pfx]. *)
Definition stops_scan (pfx : bytes) (rest : list Item) : Prop :=
  match rest with
  | [] => True
  | item :: _ => ~ starts_with pfx item
  end.

(** The byte sequence of the same length that follows [P]: [P] plus one as
    a big-endian number. The last byte that is not 0xff goes up by one and
    the bytes after it become zero; there is none after a sequence of 0xff
    bytes. *)
Fixpoint next_prefix (P : bytes) : option bytes :=
  match P with
  | [] => None
  | b :: r =>
      match next_prefix r with
      | Some r' => Some (b :: r')
      | None =>
          match Byte.of_N (Byte.to_N b + 1) with
          | Some b' => Some (b' :: make_bytes (length r))
          | None => None
          end
      end
  end.

#[global] Instance error_eq_dec : EqDecision error.
Proof. solve_decision. Defined.

#[global] Instance key_lt_dec a b : Decision (key_lt a b).
Proof. unfold key_lt. apply _. Defined.

#[global] Instance Txn_ordered_dec txn : Decision (Txn_ordered txn).
Proof. unfold Txn_ordered. apply _. Defined.

(** ** Example stores *)

(** Keys 00 01, 00 02 and 01 01, written in that order. *)
Definition example_store : list Item :=
  store_Set [Byte.x01; Byte.x01] (list_byte_of_string "h1")
    (store_Set [Byte.x00; Byte.x02] (list_byte_of_string "blockB")
       (store_Set [Byte.x00; Byte.x01] (list_byte_of_string "blockA") [])).

Definition example_txn : Txn := mkTxn example_store 0.

(** The same keys, the value under 00 02 being unreadable. *)
Definition faulty_txn : Txn :=
  mkTxn
    [ mkItem [Byte.x00; Byte.x01] (list_byte_of_string "blockA") None;
      mkItem [Byte.x00; Byte.x02] [] (Some (Error "value log: read failed"));
      mkItem [Byte.x01; Byte.x01] (list_byte_of_string "h1") None ]
    0.

(** ** What the registry is specified to hold *)

(** The declaration of a field: its [prefix_id] tag. *)
Definition prefix_id (field : StructField) : string :=
  Tag_Get (Tag field) "prefix_id".

(** The prefix a field resolves to (nil when resolving it panics). *)
Definition resolved (Unmarshal : string -> slice byte -> UnmarshalResult)
    (field : StructField) : slice byte :=
  match getPrefixIdValue Unmarshal field with
  | Returns v => v
  | Panics _ => nil_slice
  end.

#[global] Instance is_panic_dec {A} (o : outcome A) : Decision (is_panic o).
Proof. destruct o; simpl; apply _. Defined.

(** A prefix of exactly one byte: not nil, of length one. *)
Definition one_byte (v : slice byte) : Prop := v <> nil_slice /\ len v = 1.

#[global] Instance one_byte_dec v : Decision (one_byte v).
Proof. unfold one_byte. apply _. Defined.

(** No prefix of the table is a leading part of the prefix of another
    field. *)
Definition prefix_free (table : StructValue) : Prop :=
  forall i j a b, i <> j -> table !! i = Some a -> table !! j = Some b ->
    ~ elems a `prefix_of` elems b.

#[global] Instance StructField_eq_dec : EqDecision StructField.
Proof. solve_decision. Defined.

(** ** Example declarations *)

(** A struct type whose second field has a declaration that is not an array
    of bytes. *)
Definition malformed_fields : list StructField :=
  [ mkField "PrefixBlocks" [("prefix_id", "[0]")];
    mkField "PrefixHeights" [("prefix_id", "[256]")];
    mkField "PrefixTip" [("prefix_id", "[2]")] ].

(** A struct type with the reserved declarations: an empty array, an empty
    tag value, no tag at all. *)
Definition reserved_fields : list StructField :=
  [ mkField "PrefixBlocks" [("prefix_id", "[0]")];
    mkField "PrefixReservedA" [("prefix_id", "[]")];
    mkField "PrefixReservedB" [("prefix_id", EmptyString)];
    mkField "PrefixReservedC" [] ].

(** ** [main]: the driver *)

(** What the driver writes, the formatting left out: the line of a field on
    standard output, and on the logger the line of a key, the line of the
    count, and the message of [log.Fatalf]. *)
Inductive Event : Type :=
| Printf_Field (fieldName : string) (prefixId : bytes)
| Log_Key (key : bytes) (i : nat)
| Log_Length (n : nat)
| Log_Fatal (err : error).

(** How the process ends: with an exit code, or in a panic. *)
Inductive ExitStatus : Type :=
| Exited (code : Z)
| Panicked (e : error).

(** [fmt.Printf] of the name of a field and of [field.Bytes()]. *)
Definition field_line (f : StructField) (field : slice byte) : Event :=
  Printf_Field (Name f) (elems field).

(** [for i, key := range txn], which logs the key with its index. *)
Definition key_lines (txn : list bytes) : list Event :=
  imap (fun i key => Log_Key key i) txn.

(** The [for] loop of [main] from index [i] on, with [n] fields left. An
    empty tail is what is written after a [return]. *)
Fixpoint main_loop (structFields : list StructField) (prefixElements : StructValue)
    (n i : nat) (newTnx : Txn) : list Event :=
  match n with
  | O => []
  | S n' =>
      match structFields !! i, prefixElements !! i with
      | Some sf, Some field =>
          let fieldName := Name sf in
          if negb (String.eqb fieldName "PrefixMempoolTxnHashToMsgDeSoTxn") then
            field_line sf field ::
            main_loop structFields prefixElements n' (S i) newTnx
          else
            field_line sf field ::
            let prefixCopy := [] ++ elems field in
            match _enumerateKeysForPrefixWithTxn newTnx prefixCopy with
            | ((_, _, Some err), _) => []
            | ((txn, _, None), newTnx') =>
                key_lines (elems txn) ++
                Log_Length (len txn) ::
                main_loop structFields prefixElements n' (S i) newTnx'
            end
      | _, _ => []
      end
  end.

(** [main], given what [badger.Open] returns: the records of the database,
    or an error. *)
Definition main (opened : list Item + error) (h : Heap) : list Event * ExitStatus :=
  match opened with
  | inr err => ([Log_Fatal err], Exited 1)
  | inl db =>
      let newTnx := mkTxn db 0 in
      match GetPrefixes h with
      | Panics e => ([], Panicked e)
      | Returns (prefixes, h') =>
          match h' !! prefixes with
          | Some prefixElements =>
              (main_loop DBPrefixes prefixElements (length prefixElements) 0 newTnx,
               Exited 0)
          | None => ([], Exited 0)
          end
      end
  end.

(** The lines of the fields of [DBPrefixes], in declaration order. *)
Definition registry_lines : list Event :=
  zip_with field_line DBPrefixes (resolved json_Unmarshal <$> DBPrefixes).

(** The prefix of [PrefixMempoolTxnHashToMsgDeSoTxn], the 38th field. *)
Definition mempool_prefix : bytes := [Byte.x26].

(** ** Example databases for the driver *)

(** Two mempool transactions, under 26 01 and 26 02, and a record of
    another collection. *)
Definition mempool_store : list Item :=
  [ mkItem [Byte.x05; Byte.x01] (list_byte_of_string "utxo") None;
    mkItem [Byte.x26; Byte.x01] (list_byte_of_string "txA") None;
    mkItem [Byte.x26; Byte.x02] (list_byte_of_string "txB") None ].

(** The same keys under the mempool prefix with other values, and other
    records around them, one of them unreadable. *)
Definition other_mempool_store : list Item :=
  [ mkItem [Byte.x26; Byte.x01] (list_byte_of_string "first") None;
    mkItem [Byte.x26; Byte.x02] (list_byte_of_string "second") None;
    mkItem [Byte.x4f; Byte.x00] [] (Some (Error "value log: read failed")) ].

(** The value of the second mempool transaction is unreadable. *)
Definition faulty_mempool_store : list Item :=
  [ mkItem [Byte.x05; Byte.x01] (list_byte_of_string "utxo") None;
    mkItem [Byte.x26; Byte.x01] (list_byte_of_string "txA") None;
    mkItem [Byte.x26; Byte.x02] [] (Some (Error "value log: read failed")) ].

(** * Properties *)

(** Settle a decidable statement about concrete data by evaluation. *)
Ltac by_evaluation :=
  lazymatch goal with
  | |- ?P => apply (bool_decide_unpack P); vm_compute; exact I
  end.

(** ** Byte sequences *)

Lemma to_N_inj (a b : byte) : Byte.to_N a = Byte.to_N b -> a = b.
Proof.
  intros H. assert (Some a = Some b) as [= ->]; [|done].
  rewrite <- (Byte.of_to_N a), <- (Byte.of_to_N b). by rewrite H.
Qed.

Lemma bytes_Compare_refl a : bytes_Compare a a = Eq.
Proof. induction a as [|x a IH]; simpl; [done|]. by rewrite N.compare_refl. Qed.

Lemma bytes_Compare_eq a b : bytes_Compare a b = Eq -> a = b.
Proof.
  revert b. induction a as [|x a IH]; intros [|y b]; simpl; try done.
  destruct (N.compare_spec (Byte.to_N x) (Byte.to_N y)) as [E| |]; try done.
  intros H. apply to_N_inj in E. f_equal; auto.
Qed.

Lemma bytes_Compare_antisym a b :
  bytes_Compare b a = CompOpp (bytes_Compare a b).
Proof.
  revert b. induction a as [|x a IH]; intros [|y b]; simpl; try done.
  rewrite (N.compare_antisym (Byte.to_N x) (Byte.to_N y)).
  destruct (Byte.to_N x ?= Byte.to_N y)%N; simpl; auto.
Qed.

Lemma bytes_Compare_lt_trans a b c :
  bytes_Compare a b = Lt -> bytes_Compare b c = Lt -> bytes_Compare a c = Lt.
Proof.
  revert b c. induction a as [|x a IH]; intros [|y b] [|z c]; simpl; try done.
  destruct (N.compare_spec (Byte.to_N x) (Byte.to_N y)) as [E1|L1|G1]; try done;
    destruct (N.compare_spec (Byte.to_N y) (Byte.to_N z)) as [E2|L2|G2]; try done;
    intros H1 H2.
  - rewrite E1, E2, N.compare_refl. eauto.
  - rewrite E1. by apply N.compare_lt_iff in L2 as ->.
  - rewrite <- E2. by apply N.compare_lt_iff in L1 as ->.
  - assert (Byte.to_N x < Byte.to_N z)%N as L by lia.
    by apply N.compare_lt_iff in L as ->.
Qed.

(** [bytes.Compare] is the lexicographic order: [a] is below [b] exactly
    when [a] is a proper leading part of [b], or the two agree up to a
    position where [a] has the smaller byte. *)
Lemma bytes_Compare_lt_iff a b :
  bytes_Compare a b = Lt <->
  (exists y k, b = a ++ y :: k) \/
  (exists c x y a' b', a = c ++ x :: a' /\ b = c ++ y :: b' /\
                       (Byte.to_N x < Byte.to_N y)%N).
Proof.
  revert b. induction a as [|x a IH]; intros [|y b]; simpl.
  - split; [done|]. intros [(y & k & H)|(c & x & y & a' & b' & H & _)]; [done|].
    by destruct c.
  - split; [|done]. intros _. left. by exists y, b.
  - split; [done|]. intros [(y & k & H)|(c & x' & y & a' & b' & _ & H & _)]; [done|].
    by destruct c.
  - destruct (N.compare_spec (Byte.to_N x) (Byte.to_N y)) as [E|L|G].
    + apply to_N_inj in E as ->. rewrite IH. split.
      * intros [(z & k & ->)|(c & x' & y' & a' & b' & -> & -> & L)].
        -- left. by exists z, k.
        -- right. by exists (y :: c), x', y', a', b'.
      * intros [(z & k & [= ->])|(c & x' & y' & a' & b' & Ha & Hb & L)].
        -- left. by exists z, k.
        -- destruct c as [|c0 c]; simplify_eq/=; [lia|].
           right. by exists c, x', y', a', b'.
    + split; [|done]. intros _. right. by exists [], x, y, a, b.
    + split; [done|].
      intros [(z & k & ?)|(c & x' & y' & a' & b' & Ha & Hb & L)];
        [simplify_eq/=; lia|].
      destruct c as [|c0 c]; simplify_eq/=; lia.
Qed.

Lemma bytes_HasPrefix_true s pfx :
  bytes_HasPrefix s pfx = true <-> pfx `prefix_of` s.
Proof.
  unfold bytes_HasPrefix, bytes_Equal.
  rewrite andb_true_iff, Nat.leb_le, bool_decide_eq_true. split.
  - intros [_ H]. exists (drop (length pfx) s).
    rewrite <- H at 1. by rewrite take_drop.
  - intros [k ->]. rewrite length_app. split; [lia|].
    by rewrite take_app_length.
Qed.

Lemma bytes_HasPrefix_false s pfx :
  bytes_HasPrefix s pfx = false <-> ~ pfx `prefix_of` s.
Proof.
  rewrite <- bytes_HasPrefix_true. by destruct (bytes_HasPrefix s pfx).
Qed.

(** A key that starts with [pfx] is not below [pfx]. *)
Lemma prefix_not_below pfx s :
  pfx `prefix_of` s -> bytes_Compare s pfx <> Lt.
Proof.
  intros [k ->]. induction pfx as [|x pfx IH]; simpl.
  - by destruct k.
  - by rewrite N.compare_refl.
Qed.

(** The keys that start with [pfx] are an interval of the key order: a key
    that is neither below [pfx] nor above a key starting with [pfx] starts
    with [pfx] itself. *)
Lemma prefix_between pfx b c :
  pfx `prefix_of` c -> bytes_Compare b pfx <> Lt -> bytes_Compare b c = Lt ->
  pfx `prefix_of` b.
Proof.
  revert b c. induction pfx as [|x pfx IH]; intros b c Hc Hb Hbc.
  - apply prefix_nil.
  - destruct Hc as [k ->]. destruct b as [|y b]; simpl in *; [done|].
    destruct (N.compare_spec (Byte.to_N y) (Byte.to_N x)) as [E|L|G]; try done.
    apply to_N_inj in E as ->. apply prefix_cons.
    apply (IH b (pfx ++ k)); [by exists k|done|done].
Qed.

(** [copy] into a fresh slice of the same length gives the same bytes. *)
Lemma copy_bytes_make key :
  copy_bytes (make_bytes (length key)) key = key.
Proof.
  unfold copy_bytes, make_bytes. rewrite length_replicate, firstn_all.
  rewrite drop_ge; [by rewrite app_nil_r|]. by rewrite length_replicate.
Qed.

(** The loop written with the iterator's own operations agrees with
    [scan_loop] on the cursor. *)
Lemma scan_loop_step pfx it ks vs :
  scan_loop pfx (cursor it) ks vs =
  if ValidForPrefix it pfx then
    match cursor it with
    | item :: _ =>
        match ValueCopy item with
        | (_, Some err) => (nil_slice, nil_slice, Some err)
        | (valCopy, None) =>
            scan_loop pfx (cursor (Next it))
              (append ks (copy_bytes (make_bytes (length (Key item))) (Key item)))
              (append vs valCopy)
        end
    | [] => (ks, vs, None)
    end
  else (ks, vs, None).
Proof.
  unfold ValidForPrefix. destruct it as [src [|item rest]]; simpl; [done|].
  destruct (bytes_HasPrefix _ _); done.
Qed.

(** ** The key order of the store *)

#[global] Instance key_lt_trans : Transitive key_lt.
Proof. intros a b c. apply bytes_Compare_lt_trans. Qed.

#[global] Instance bytes_lt_trans : Transitive bytes_lt.
Proof. intros a b c. apply bytes_Compare_lt_trans. Qed.

Lemma Txn_ordered_strongly txn :
  Txn_ordered txn -> StronglySorted key_lt (snapshot txn).
Proof. apply Sorted_StronglySorted, _. Qed.

Lemma seek_from_elem key items item :
  item ∈ seek_from key items -> item ∈ items.
Proof.
  induction items as [|i rest IH]; simpl; [done|].
  destruct (bytes_Compare (Key i) key); try done.
  intros H. right. auto.
Qed.

Lemma records_under_none pfx items :
  (forall item, item ∈ items -> ~ starts_with pfx item) ->
  filter (starts_with pfx) items = [].
Proof.
  induction items as [|i l IH]; intros H; [done|].
  rewrite filter_cons_False by (apply H; left).
  apply IH. intros j Hj. apply H. by right.
Qed.

(** In an ordered run of records none of which is below [pfx], the records
    under [pfx] come first and are followed by a record that is not. *)
Lemma records_under_front pfx items :
  StronglySorted key_lt items ->
  Forall (fun i => bytes_Compare (Key i) pfx <> Lt) items ->
  exists rest, items = records_under pfx items ++ rest /\ stops_scan pfx rest.
Proof.
  unfold records_under.
  induction 1 as [|i l Hl IH Hi]; intros Hge.
  - by exists [].
  - apply Forall_cons in Hge as [Hgei Hgel].
    destruct (decide (starts_with pfx i)) as [Hp|Hp].
    + destruct (IH Hgel) as (rest & E & Hrest). exists rest.
      rewrite filter_cons_True by done. simpl. by rewrite <- E.
    + exists (i :: l). split; [|done].
      rewrite filter_cons_False by done.
      rewrite records_under_none; [done|].
      intros j Hj Hpj. apply Hp. rewrite Forall_forall in Hi.
      apply (prefix_between pfx (Key i) (Key j)); [done|done|].
      by apply Hi.
Qed.

(** [Seek] puts the cursor on the first record under the prefix, when there
    is one: from the cursor on come the records under [pfx], all of them,
    then a record that is not under it, or the end. *)
Lemma seek_from_records_under pfx items :
  StronglySorted key_lt items ->
  exists rest,
    seek_from pfx items = records_under pfx items ++ rest /\ stops_scan pfx rest.
Proof.
  induction 1 as [|i l Hl IH Hi]; simpl.
  - by exists [].
  - destruct (bytes_Compare (Key i) pfx) eqn:Hc.
    + apply (records_under_front pfx (i :: l)); [by constructor|].
      apply Forall_cons. split; [by rewrite Hc|].
      apply Forall_forall. intros j Hj Hlt.
      apply bytes_Compare_eq in Hc. rewrite Forall_forall in Hi.
      assert (key_lt i j) as Hij by (by apply Hi).
      unfold key_lt in Hij. rewrite Hc in Hij.
      pose proof (bytes_Compare_antisym pfx (Key j)) as Ha.
      rewrite Hij in Ha. simpl in Ha. congruence.
    + destruct IH as (rest & E & Hrest). exists rest. split; [|done].
      unfold records_under. rewrite filter_cons_False; [done|].
      intros Hp. by apply (prefix_not_below pfx (Key i)).
    + apply (records_under_front pfx (i :: l)); [by constructor|].
      apply Forall_cons. split; [by rewrite Hc|].
      apply Forall_forall. intros j Hj Hlt.
      rewrite Forall_forall in Hi.
      assert (key_lt i j) as Hij by (by apply Hi).
      pose proof (bytes_Compare_lt_trans _ _ _ Hij Hlt). congruence.
Qed.

(** ** The loop of the scan *)

(** Over records that start with the prefix and whose values can be read,
    the loop appends their keys and values and goes on. *)
Lemma scan_loop_app pfx run rest ks vs :
  Forall (starts_with pfx) run ->
  Forall (fun i => readErr i = None) run ->
  run <> [] ->
  scan_loop pfx (run ++ rest) ks vs =
  scan_loop pfx rest (Some (elems ks ++ (Key <$> run)))
                     (Some (elems vs ++ (Value <$> run))).
Proof.
  revert ks vs. induction run as [|i run IH]; intros ks vs Hp Hr Hne; [done|].
  apply Forall_cons in Hp as [Hpi Hp]. apply Forall_cons in Hr as [Hri Hr].
  simpl. apply bytes_HasPrefix_true in Hpi as ->.
  unfold ValueCopy. rewrite Hri, copy_bytes_make.
  destruct run as [|i' run'].
  - done.
  - rewrite IH by done. unfold append. simpl.
    by rewrite <- !app_assoc.
Qed.

Lemma scan_loop_stop pfx rest ks vs :
  stops_scan pfx rest -> scan_loop pfx rest ks vs = (ks, vs, None).
Proof.
  destruct rest as [|i rest]; simpl; [done|].
  intros H. by apply bytes_HasPrefix_false in H as ->.
Qed.

(** A value that cannot be read makes the loop drop what it has collected. *)
Lemma scan_loop_read_error pfx run rest ks vs :
  Forall (starts_with pfx) run ->
  Exists (fun i => readErr i <> None) run ->
  exists bad err,
    bad ∈ run /\ readErr bad = Some err /\
    scan_loop pfx (run ++ rest) ks vs = (nil_slice, nil_slice, Some err).
Proof.
  revert ks vs. induction run as [|i run IH]; intros ks vs Hp Hbad.
  - by apply Exists_nil in Hbad.
  - apply Forall_cons in Hp as [Hpi Hp].
    simpl. apply bytes_HasPrefix_true in Hpi as ->. unfold ValueCopy.
    destruct (readErr i) as [e|] eqn:Hri.
    + exists i, e. split; [left|done].
    + apply Exists_cons in Hbad as [Hbad|Hbad]; [done|].
      destruct (IH (append ks (copy_bytes (make_bytes (length (Key i))) (Key i)))
                   (append vs (Value i)) Hp Hbad) as (bad & err & Hin & He & Hs).
      exists bad, err. split; [by right|done].
Qed.

(** Writing a record keeps the store in key order. *)
Lemma store_Set_ordered key value items :
  Sorted key_lt items -> Sorted key_lt (store_Set key value items).
Proof.
  induction 1 as [|i rest Hrest IH Hhd]; simpl.
  - by repeat constructor.
  - destruct (bytes_Compare key (Key i)) eqn:Hc.
    + apply bytes_Compare_eq in Hc. constructor; [done|].
      destruct Hhd as [|j rest' Hij]; constructor.
      unfold key_lt in *. simpl. by rewrite Hc.
    + constructor; [by constructor|]. by constructor.
    + constructor; [done|].
      assert (key_lt i (mkItem key value None)) as Hik.
      { unfold key_lt. simpl. rewrite (bytes_Compare_antisym key (Key i)).
        by rewrite Hc. }
      destruct Hhd as [|j rest' Hij]; simpl; [by constructor|].
      destruct (bytes_Compare key (Key j)); by constructor.
Qed.

Lemma example_store_contents :
  example_store =
  [ mkItem [Byte.x00; Byte.x01] (list_byte_of_string "blockA") None;
    mkItem [Byte.x00; Byte.x02] (list_byte_of_string "blockB") None;
    mkItem [Byte.x01; Byte.x01] (list_byte_of_string "h1") None ].
Proof. reflexivity. Qed.

(** The end-to-end example: scanning 00 finds the two blocks, in order. *)
Example scan_example :
  (_enumerateKeysForPrefixWithTxn example_txn [Byte.x00]).1 =
  (Some [[Byte.x00; Byte.x01]; [Byte.x00; Byte.x02]],
   Some [list_byte_of_string "blockA"; list_byte_of_string "blockB"],
   None).
Proof. reflexivity. Qed.

Example scan_faulty_example :
  (_enumerateKeysForPrefixWithTxn faulty_txn [Byte.x00]).1 =
  (nil_slice, nil_slice, Some (Error "value log: read failed")).
Proof. reflexivity. Qed.

(** ** The scan over an ordered store *)

Lemma records_under_starts_with pfx items :
  Forall (starts_with pfx) (records_under pfx items).
Proof.
  apply Forall_forall. intros i Hi.
  by apply list_elem_of_filter in Hi as [? _].
Qed.

Lemma records_under_ascending pfx items :
  StronglySorted key_lt items ->
  ascending (Key <$> records_under pfx items).
Proof.
  unfold records_under, ascending.
  induction 1 as [|i l Hl IH Hi]; [constructor|].
  destruct (decide (starts_with pfx i)).
  - rewrite filter_cons_True by done. simpl. constructor; [done|].
    apply List.Forall_forall. intros k Hk.
    apply list_elem_of_In, list_elem_of_fmap in Hk as (j & -> & Hj).
    apply list_elem_of_filter in Hj as [_ Hj].
    rewrite Forall_forall in Hi. by apply Hi.
  - by rewrite filter_cons_False.
Qed.

(** What the scan of an ordered store returns when every value it reads can
    be read. *)
Lemma scan_ordered txn dbPrefix :
  Txn_ordered txn ->
  Forall (fun i => readErr i = None) (records_under dbPrefix (snapshot txn)) ->
  exists keys vals rest,
    (_enumerateKeysForPrefixWithTxn txn dbPrefix).1 = (keys, vals, None) /\
    elems keys = Key <$> records_under dbPrefix (snapshot txn) /\
    elems vals = Value <$> records_under dbPrefix (snapshot txn) /\
    ascending (elems keys) /\
    seek_from dbPrefix (snapshot txn) = records_under dbPrefix (snapshot txn) ++ rest /\
    stops_scan dbPrefix rest.
Proof.
  intros Hord Hread. apply Txn_ordered_strongly in Hord.
  destruct (seek_from_records_under dbPrefix _ Hord) as (rest & Hseek & Hstop).
  pose proof (records_under_ascending dbPrefix _ Hord) as Hasc.
  unfold _enumerateKeysForPrefixWithTxn. simpl. rewrite Hseek.
  destruct (records_under dbPrefix (snapshot txn)) as [|i hits] eqn:Hhits.
  - exists nil_slice, nil_slice, rest. simpl.
    rewrite scan_loop_stop by done. by repeat split.
  - pose proof (records_under_starts_with dbPrefix (snapshot txn)) as Hsw.
    rewrite Hhits in Hsw.
    rewrite scan_loop_app, scan_loop_stop by done.
    by eexists _, _, rest.
Qed.

(** C1: over an ordered store whose values under the prefix can be read, the
    scan of a non-empty prefix returns the keys and the values of exactly the
    records whose key starts with the prefix, in store order, which is
    strictly ascending; the cursor starts at these records and what follows
    them is the end of the store or a key that does not start with the
    prefix. *)
Theorem scan_returns_records_under_prefix txn dbPrefix :
  dbPrefix <> [] ->
  Txn_ordered txn ->
  Forall (fun i => readErr i = None) (records_under dbPrefix (snapshot txn)) ->
  exists keys vals rest,
    (_enumerateKeysForPrefixWithTxn txn dbPrefix).1 = (keys, vals, None) /\
    elems keys = Key <$> records_under dbPrefix (snapshot txn) /\
    elems vals = Value <$> records_under dbPrefix (snapshot txn) /\
    ascending (elems keys) /\
    seek_from dbPrefix (snapshot txn) = records_under dbPrefix (snapshot txn) ++ rest /\
    stops_scan dbPrefix rest.
Proof. intros _. apply scan_ordered. Qed.

Lemma scan_returns_records_under_prefix_witness :
  exists keys vals rest,
    (_enumerateKeysForPrefixWithTxn example_txn [Byte.x00]).1 = (keys, vals, None) /\
    elems keys = [[Byte.x00; Byte.x01]; [Byte.x00; Byte.x02]] /\
    elems vals = [list_byte_of_string "blockA"; list_byte_of_string "blockB"] /\
    ascending (elems keys) /\
    seek_from [Byte.x00] (snapshot example_txn)
      = records_under [Byte.x00] (snapshot example_txn) ++ rest /\
    stops_scan [Byte.x00] rest.
Proof.
  apply (scan_returns_records_under_prefix example_txn [Byte.x00]).
  - discriminate.
  - by_evaluation.
  - by_evaluation.
Defined.

Lemma records_under_empty_prefix items : records_under [] items = items.
Proof.
  unfold records_under. induction items as [|i l IH]; [done|].
  rewrite (filter_cons_True (starts_with []) i l); [by rewrite IH|].
  apply prefix_nil.
Qed.

(** C9: with the empty prefix the scan does not fail: over an ordered store
    whose values can be read it returns the key and the value of every
    record of the store, in ascending key order. *)
Theorem scan_empty_prefix_returns_all txn :
  Txn_ordered txn ->
  Forall (fun i => readErr i = None) (snapshot txn) ->
  exists keys vals,
    (_enumerateKeysForPrefixWithTxn txn []).1 = (keys, vals, None) /\
    elems keys = Key <$> snapshot txn /\
    elems vals = Value <$> snapshot txn /\
    ascending (elems keys).
Proof.
  intros Hord Hread.
  pose proof (records_under_empty_prefix (snapshot txn)) as Hall.
  destruct (scan_ordered txn [] Hord) as (keys & vals & rest & H);
    [by rewrite Hall|].
  rewrite Hall in H. exists keys, vals. tauto.
Qed.

Lemma scan_empty_prefix_returns_all_witness :
  exists keys vals,
    (_enumerateKeysForPrefixWithTxn example_txn []).1 = (keys, vals, None) /\
    elems keys = Key <$> snapshot example_txn /\
    elems vals = Value <$> snapshot example_txn /\
    ascending (elems keys).
Proof.
  apply (scan_empty_prefix_returns_all example_txn).
  - by_evaluation.
  - by_evaluation.
Defined.

(** C3: over an ordered store, when the value of a record under the prefix
    cannot be read, the scan returns the error of such a record with nil key
    and value lists, whatever it had collected; this result is none of the
    results of a scan that succeeds. *)
Theorem scan_read_error_aborts txn dbPrefix :
  Txn_ordered txn ->
  Exists (fun i => readErr i <> None) (records_under dbPrefix (snapshot txn)) ->
  exists bad err,
    bad ∈ records_under dbPrefix (snapshot txn) /\
    readErr bad = Some err /\
    (_enumerateKeysForPrefixWithTxn txn dbPrefix).1 = (nil_slice, nil_slice, Some err) /\
    forall keys vals,
      (_enumerateKeysForPrefixWithTxn txn dbPrefix).1 <> (keys, vals, None).
Proof.
  intros Hord Hbad. apply Txn_ordered_strongly in Hord.
  destruct (seek_from_records_under dbPrefix _ Hord) as (rest & Hseek & _).
  unfold _enumerateKeysForPrefixWithTxn. simpl. rewrite Hseek.
  destruct (scan_loop_read_error dbPrefix _ rest nil_slice nil_slice
              (records_under_starts_with dbPrefix (snapshot txn)) Hbad)
    as (bad & err & Hin & He & Hs).
  exists bad, err. rewrite Hs. by repeat split.
Qed.

Lemma scan_read_error_aborts_witness :
  exists bad err,
    bad ∈ records_under [Byte.x00] (snapshot faulty_txn) /\
    readErr bad = Some err /\
    (_enumerateKeysForPrefixWithTxn faulty_txn [Byte.x00]).1
      = (nil_slice, nil_slice, Some err) /\
    forall keys vals,
      (_enumerateKeysForPrefixWithTxn faulty_txn [Byte.x00]).1 <> (keys, vals, None).
Proof.
  apply (scan_read_error_aborts faulty_txn [Byte.x00]).
  - by_evaluation.
  - by_evaluation.
Defined.

(** C6: when no key of the store starts with the prefix, the scan returns
    no keys, no values and a nil error. *)
Theorem scan_no_match_is_empty_success txn dbPrefix :
  Forall (fun item => ~ starts_with dbPrefix item) (snapshot txn) ->
  (_enumerateKeysForPrefixWithTxn txn dbPrefix).1 = (nil_slice, nil_slice, None) /\
  len (_enumerateKeysForPrefixWithTxn txn dbPrefix).1.1.1 = 0.
Proof.
  intros Hnone. unfold _enumerateKeysForPrefixWithTxn. simpl.
  rewrite scan_loop_stop; [done|].
  destruct (seek_from dbPrefix (snapshot txn)) as [|i rest] eqn:Hseek; [done|].
  simpl. rewrite Forall_forall in Hnone. apply Hnone.
  apply (seek_from_elem dbPrefix). rewrite Hseek. left.
Qed.

Lemma scan_no_match_is_empty_success_witness :
  (_enumerateKeysForPrefixWithTxn example_txn [Byte.x00; Byte.x03]).1
    = (nil_slice, nil_slice, None) /\
  len (_enumerateKeysForPrefixWithTxn example_txn [Byte.x00; Byte.x03]).1.1.1 = 0.
Proof.
  apply (scan_no_match_is_empty_success example_txn [Byte.x00; Byte.x03]).
  by_evaluation.
Defined.

(** C8: a scan leaves the transaction as it found it, and a second scan of
    the same prefix, run after the first on the transaction it left, returns
    the same key list and the same value list in the same order; the result
    depends on the snapshot only. *)
Theorem scan_is_restartable txn dbPrefix :
  let first := _enumerateKeysForPrefixWithTxn txn dbPrefix in
  let second := _enumerateKeysForPrefixWithTxn first.2 dbPrefix in
  first.2 = txn /\ second.1 = first.1 /\ second.2 = txn /\
  forall txn', snapshot txn' = snapshot txn ->
    (_enumerateKeysForPrefixWithTxn txn' dbPrefix).1 = first.1.
Proof.
  assert (forall t, (_enumerateKeysForPrefixWithTxn t dbPrefix).2 = t) as Hsame.
  { intros [items n]. unfold _enumerateKeysForPrefixWithTxn, Close. simpl.
    f_equal. lia. }
  cbv zeta. rewrite !Hsame. repeat split.
  intros txn' Hs. unfold _enumerateKeysForPrefixWithTxn. simpl. by rewrite Hs.
Qed.

(** ** The boundary of a prefix range *)

Lemma bytes_Compare_app_lt a b k k' :
  length a = length b -> bytes_Compare a b = Lt ->
  bytes_Compare (a ++ k) (b ++ k') = Lt.
Proof.
  revert b. induction a as [|x a IH]; intros [|y b]; simpl; try done.
  intros [= Hlen]. destruct (Byte.to_N x ?= Byte.to_N y)%N; auto.
Qed.

Lemma bytes_Compare_extend a y k : bytes_Compare a (a ++ y :: k) = Lt.
Proof. apply bytes_Compare_lt_iff. left. by exists y, k. Qed.

Lemma bytes_Compare_gt a b : bytes_Compare a b = Lt -> bytes_Compare b a = Gt.
Proof. intros H. by rewrite (bytes_Compare_antisym a b), H. Qed.

(** [next_prefix] keeps the length and goes up in the key order. *)
Lemma next_prefix_spec P Q :
  next_prefix P = Some Q -> length Q = length P /\ bytes_lt P Q.
Proof.
  unfold bytes_lt. revert Q. induction P as [|b r IH]; intros Q; simpl; [done|].
  destruct (next_prefix r) as [r'|].
  - intros [= <-]. destruct (IH r' eq_refl) as [Hlen Hlt]. simpl.
    by rewrite Hlen, N.compare_refl.
  - destruct (Byte.of_N (Byte.to_N b + 1)) as [b'|] eqn:Hb; [|done].
    intros [= <-]. simpl. unfold make_bytes. rewrite length_replicate.
    split; [done|]. apply Byte.to_of_N in Hb.
    assert (Byte.to_N b < Byte.to_N b')%N as Hlt by lia.
    by apply N.compare_lt_iff in Hlt as ->.
Qed.

(** No sequence of the same length is below a sequence of zero bytes, and
    none is above a sequence that has no successor. *)
Lemma make_bytes_least t : bytes_Compare t (make_bytes (length t)) <> Lt.
Proof.
  induction t as [|y t IH]; simpl; [done|].
  destruct (N.compare_spec (Byte.to_N y) 0) as [E|L|G]; try done. lia.
Qed.

Lemma next_prefix_None_greatest r t :
  next_prefix r = None -> length t = length r -> bytes_Compare r t <> Lt.
Proof.
  revert t. induction r as [|x r IH]; intros [|y t]; simpl; try done.
  destruct (next_prefix r); [done|].
  destruct (Byte.of_N (Byte.to_N x + 1)) eqn:Hx; [done|].
  intros _ [= Hlen]. apply Byte.of_N_None_iff in Hx.
  pose proof (Byte.to_N_bounded y).
  destruct (N.compare_spec (Byte.to_N x) (Byte.to_N y)) as [E|L|G]; try done.
  - by apply IH.
  - lia.
Qed.

(** [next_prefix P] is the next one: no sequence of the length of [P] lies
    between the two. *)
Lemma next_prefix_is_next P Q R :
  next_prefix P = Some Q -> length R = length P -> bytes_lt P R ->
  ~ bytes_lt R Q.
Proof.
  unfold bytes_lt. revert Q R.
  induction P as [|b r IH]; intros Q [|c t]; simpl; try done.
  destruct (next_prefix r) as [r'|] eqn:Hr.
  - intros [= <-] [= Hlen]. simpl.
    rewrite (N.compare_antisym (Byte.to_N b) (Byte.to_N c)).
    destruct (Byte.to_N b ?= Byte.to_N c)%N; simpl; try done.
    intros Hrt. by apply IH.
  - destruct (Byte.of_N (Byte.to_N b + 1)) as [b'|] eqn:Hb; [|done].
    intros [= <-] [= Hlen]. simpl. apply Byte.to_of_N in Hb.
    destruct (N.compare_spec (Byte.to_N b) (Byte.to_N c)) as [E|L|G]; try done.
    + intros Hrt. by apply (next_prefix_None_greatest r t) in Hrt.
    + intros _.
      destruct (N.compare_spec (Byte.to_N c) (Byte.to_N b')) as [E'|L'|G'];
        try done; [|lia].
      rewrite <- Hlen. apply make_bytes_least.
Qed.

Example next_prefix_05 : next_prefix [Byte.x05] = Some [Byte.x06].
Proof. reflexivity. Qed.

Example next_prefix_carry :
  next_prefix [Byte.x05; Byte.xff] = Some [Byte.x06; Byte.x00].
Proof. reflexivity. Qed.

Example next_prefix_none : next_prefix [Byte.xff; Byte.xff] = None.
Proof. reflexivity. Qed.

(** C5: write the keys P||00, P and (P+1)||00, in this order, into an empty
    store, P non-empty and P+1 the byte sequence after P. The store holds
    them as P, P||00, (P+1)||00; the cursor of a scan of P starts at the key
    P itself, and the scan returns the records of P and P||00, in this order,
    and not the record of (P+1)||00. *)
Theorem scan_boundary_precision P Q v1 v2 v3 n :
  P <> [] ->
  next_prefix P = Some Q ->
  let store :=
    store_Set (Q ++ [Byte.x00]) v3
      (store_Set P v2 (store_Set (P ++ [Byte.x00]) v1 [])) in
  store = [mkItem P v2 None; mkItem (P ++ [Byte.x00]) v1 None;
           mkItem (Q ++ [Byte.x00]) v3 None] /\
  Txn_ordered (mkTxn store n) /\
  seek_from P store = store /\
  (_enumerateKeysForPrefixWithTxn (mkTxn store n) P).1
    = (Some [P; P ++ [Byte.x00]], Some [v2; v1], None).
Proof.
  intros _ HQ. apply next_prefix_spec in HQ as [Hlen Hlt]. unfold bytes_lt in Hlt.
  assert (bytes_Compare P (P ++ [Byte.x00]) = Lt) as H1
    by apply bytes_Compare_extend.
  assert (bytes_Compare (P ++ [Byte.x00]) (Q ++ [Byte.x00]) = Lt) as H2
    by (by apply bytes_Compare_app_lt).
  assert (bytes_Compare P (Q ++ [Byte.x00]) = Lt) as H3
    by (by apply (bytes_Compare_lt_trans _ _ _ H1 H2)).
  assert (bytes_HasPrefix (Q ++ [Byte.x00]) P = false) as H4.
  { apply bytes_HasPrefix_false. intros [k Hk].
    apply (f_equal (take (length P))) in Hk.
    rewrite take_app_length in Hk. rewrite <- Hlen, take_app_length in Hk.
    subst Q. by rewrite bytes_Compare_refl in Hlt. }
  assert (bytes_HasPrefix (P ++ [Byte.x00]) P = true) as H5
    by (apply bytes_HasPrefix_true; by exists [Byte.x00]).
  assert (bytes_HasPrefix P P = true) as H6
    by (by apply bytes_HasPrefix_true).
  cbv zeta. simpl store_Set.
  rewrite H1. simpl store_Set.
  rewrite (bytes_Compare_gt _ _ H3). simpl store_Set.
  rewrite (bytes_Compare_gt _ _ H2).
  split; [done|]. split.
  { unfold Txn_ordered. simpl. repeat constructor; done. }
  unfold _enumerateKeysForPrefixWithTxn. simpl.
  rewrite bytes_Compare_refl. split; [done|]. simpl.
  rewrite H6, H5, H4. unfold ValueCopy, append. simpl.
  by rewrite !copy_bytes_make.
Qed.

Lemma scan_boundary_precision_witness :
  let P := [Byte.x05; Byte.xff] in
  let Q := [Byte.x06; Byte.x00] in
  let v1 := [Byte.x01] in
  let v2 := [Byte.x02] in
  let v3 := [Byte.x03] in
  let store :=
    store_Set (Q ++ [Byte.x00]) v3
      (store_Set P v2 (store_Set (P ++ [Byte.x00]) v1 [])) in
  store = [mkItem P v2 None; mkItem (P ++ [Byte.x00]) v1 None;
           mkItem (Q ++ [Byte.x00]) v3 None] /\
  Txn_ordered (mkTxn store 0) /\
  seek_from P store = store /\
  (_enumerateKeysForPrefixWithTxn (mkTxn store 0) P).1
    = (Some [P; P ++ [Byte.x00]], Some [v2; v1], None).
Proof.
  apply (scan_boundary_precision [Byte.x05; Byte.xff] [Byte.x06; Byte.x00]
           [Byte.x01] [Byte.x02] [Byte.x03] 0).
  - discriminate.
  - reflexivity.
Defined.

(** ** The registry *)

Section RegistryFacts.

Variable Unmarshal : string -> slice byte -> UnmarshalResult.

Lemma resolved_returns field :
  ~ is_panic (getPrefixIdValue Unmarshal field) ->
  getPrefixIdValue Unmarshal field = Returns (resolved Unmarshal field).
Proof. unfold resolved. by destruct (getPrefixIdValue Unmarshal field). Qed.

Lemma insert_alter_same (h : Heap) p f (x : StructValue) :
  <[p := x]> (alter f p h) = <[p := x]> h.
Proof.
  apply map_eq. intros k. destruct (decide (p = k)) as [->|Hne].
  - by rewrite !lookup_insert_eq.
  - by rewrite !lookup_insert_ne, lookup_alter_ne.
Qed.

(** The loop fills the fields from [i] on, in declaration order, and
    leaves the fields before [i] as they are. *)
Lemma GetPrefixes_loop_returns structFields prefixes n i (h : Heap) s :
  h !! prefixes = Some s ->
  length s = length structFields ->
  i + n = length structFields ->
  Forall (fun f => ~ is_panic (getPrefixIdValue Unmarshal f)) (drop i structFields) ->
  GetPrefixes_loop Unmarshal structFields prefixes n i h =
  Returns (<[prefixes := take i s ++ (resolved Unmarshal <$> drop i structFields)]> h).
Proof.
  revert i h s. induction n as [|n IH]; intros i h s Hs Hlen Hi Hok; simpl.
  - rewrite drop_ge, take_ge, app_nil_r by lia. by rewrite insert_id.
  - destruct (lookup_lt_is_Some_2 structFields i) as [f Hf]; [lia|].
    rewrite Hf. rewrite (drop_S _ _ _ Hf) in Hok |- *.
    apply Forall_cons in Hok as [Hokf Hok].
    rewrite (resolved_returns f Hokf).
    rewrite (IH (S i) _ (<[i := resolved Unmarshal f]> s)); try done.
    + rewrite insert_alter_same. do 2 f_equal.
      rewrite (take_S_r _ _ (resolved Unmarshal f)).
      * rewrite take_insert_ge by lia. by rewrite <- app_assoc.
      * apply list_lookup_insert_eq. lia.
    + by rewrite lookup_alter_eq, Hs.
    + by rewrite length_insert.
    + lia.
Qed.

(** The loop stops at the first field whose declaration makes
    [getPrefixIdValue] panic. *)
Lemma GetPrefixes_loop_panics structFields prefixes before field after e :
  Forall (fun f => ~ is_panic (getPrefixIdValue Unmarshal f)) before ->
  getPrefixIdValue Unmarshal field = Panics e ->
  forall n i (h : Heap),
    drop i structFields = before ++ field :: after ->
    i + n = length structFields ->
    GetPrefixes_loop Unmarshal structFields prefixes n i h = Panics e.
Proof.
  intros Hok Hpanic. induction Hok as [|g before Hg Hok IH]; intros n i h Hd Hn.
  - assert (structFields !! i = Some field) as Hf.
    { rewrite <- (Nat.add_0_r i), <- lookup_drop. by rewrite Hd. }
    destruct n as [|n]; [apply lookup_lt_Some in Hf; lia|].
    simpl. by rewrite Hf, Hpanic.
  - assert (structFields !! i = Some g) as Hf.
    { rewrite <- (Nat.add_0_r i), <- lookup_drop. by rewrite Hd. }
    destruct n as [|n]; [apply lookup_lt_Some in Hf; lia|].
    simpl. rewrite Hf, (resolved_returns g Hg).
    apply IH; [|lia].
    rewrite (drop_S _ _ _ Hf) in Hd. by injection Hd.
Qed.

(** When no declaration makes [getPrefixIdValue] panic, [GetPrefixes]
    returns a new struct that holds the resolved prefixes in declaration
    order, and leaves the rest of the heap alone. *)
Lemma GetPrefixes_of_returns structFields (h : Heap) :
  Forall (fun f => ~ is_panic (getPrefixIdValue Unmarshal f)) structFields ->
  GetPrefixes_of Unmarshal structFields h =
  Returns (fresh (dom h), <[fresh (dom h) := resolved Unmarshal <$> structFields]> h).
Proof.
  intros Hok. unfold GetPrefixes_of.
  rewrite (GetPrefixes_loop_returns _ _ _ _ _ (zero_value structFields)).
  - by rewrite insert_insert_eq.
  - by rewrite lookup_insert_eq.
  - unfold zero_value. by rewrite length_replicate.
  - done.
  - done.
Qed.

Lemma first_panic structFields :
  Exists (fun f => is_panic (getPrefixIdValue Unmarshal f)) structFields ->
  exists before field after,
    structFields = before ++ field :: after /\
    Forall (fun f => ~ is_panic (getPrefixIdValue Unmarshal f)) before /\
    is_panic (getPrefixIdValue Unmarshal field).
Proof.
  induction structFields as [|g l IH]; intros Hex.
  - by apply Exists_nil in Hex.
  - destruct (decide (is_panic (getPrefixIdValue Unmarshal g))) as [Hg|Hg].
    + by exists [], g, l.
    + apply Exists_cons in Hex as [Hex|Hex]; [done|].
      destruct (IH Hex) as (before & field & after & -> & Hok & Hp).
      exists (g :: before), field, after. repeat split; [|done].
      by constructor.
Qed.

(** When a declaration makes [getPrefixIdValue] panic, so does
    [GetPrefixes]: no struct is returned. *)
Lemma GetPrefixes_of_panics structFields (h : Heap) :
  Exists (fun f => is_panic (getPrefixIdValue Unmarshal f)) structFields ->
  is_panic (GetPrefixes_of Unmarshal structFields h).
Proof.
  intros Hex.
  destruct (first_panic _ Hex) as (before & field & after & E & Hok & Hp).
  destruct (getPrefixIdValue Unmarshal field) as [|e] eqn:He; [done|].
  unfold GetPrefixes_of.
  by rewrite (GetPrefixes_loop_panics structFields _ before field after e).
Qed.

(** The reserved declarations (no tag, the empty tag, an empty array) are
    not an error: the field resolves to the empty slice. *)
Lemma getPrefixIdValue_reserved field :
  prefix_id field = EmptyString \/ prefix_id field = "[]" ->
  getPrefixIdValue Unmarshal field = Returns (Some []).
Proof. unfold getPrefixIdValue, prefix_id. by intros [-> | ->]. Qed.

Lemma getPrefixIdValue_dash field :
  prefix_id field = "-" ->
  getPrefixIdValue Unmarshal field = Panics (Error "prefix_id cannot be empty").
Proof. unfold getPrefixIdValue, prefix_id. by intros ->. Qed.

Lemma getPrefixIdValue_decode_error field err :
  prefix_id field <> "-" ->
  prefix_id field <> EmptyString ->
  prefix_id field <> "[]" ->
  Unmarshal (prefix_id field) (Some []) = DecodeError err ->
  getPrefixIdValue Unmarshal field = Panics err.
Proof.
  unfold getPrefixIdValue, prefix_id. intros H1 H2 H3 Herr.
  apply String.eqb_neq in H1 as ->. apply String.eqb_neq in H2 as ->.
  apply String.eqb_neq in H3 as ->. simpl. by rewrite Herr.
Qed.

End RegistryFacts.

(** ** The decoder on sample texts *)

Example json_array_5 : json_Unmarshal "[5]" (Some []) = Decoded (Some [Byte.x05]).
Proof. reflexivity. Qed.

Example json_array_spaced :
  json_Unmarshal " [ 1 , 20 ] " (Some []) = Decoded (Some [Byte.x01; Byte.x14]).
Proof. reflexivity. Qed.

Example json_array_empty : json_Unmarshal "[]" (Some []) = Decoded (Some []).
Proof. reflexivity. Qed.

Example json_null : json_Unmarshal "null" (Some []) = Decoded nil_slice.
Proof. reflexivity. Qed.

Example json_uint8_overflow :
  exists err, json_Unmarshal "[256]" (Some []) = DecodeError err.
Proof. by eexists. Qed.

Example json_negative :
  exists err, json_Unmarshal "[-1]" (Some []) = DecodeError err.
Proof. by eexists. Qed.

Example json_leading_zero :
  exists err, json_Unmarshal "[07]" (Some []) = DecodeError err.
Proof. by eexists. Qed.

Example json_unterminated :
  exists err, json_Unmarshal "[7" (Some []) = DecodeError err.
Proof. by eexists. Qed.

Example json_dash :
  exists err, json_Unmarshal "-" (Some []) = DecodeError err.
Proof. by eexists. Qed.

(** ** The registry of [DBPrefixes] *)

Lemma DBPrefixes_no_panic :
  Forall (fun f => ~ is_panic (getPrefixIdValue json_Unmarshal f)) DBPrefixes.
Proof. by_evaluation. Qed.

Lemma DBPrefixes_names_unique : NoDup (Name <$> DBPrefixes).
Proof. by_evaluation. Qed.

Lemma GetPrefixes_returns (h : Heap) :
  GetPrefixes h =
  Returns (fresh (dom h), <[fresh (dom h) := resolved json_Unmarshal <$> DBPrefixes]> h).
Proof. apply GetPrefixes_of_returns, DBPrefixes_no_panic. Qed.

Lemma resolved_in_order Unmarshal structFields :
  Forall (fun f => ~ is_panic (getPrefixIdValue Unmarshal f)) structFields ->
  Forall2 (fun f v => getPrefixIdValue Unmarshal f = Returns v)
    structFields (resolved Unmarshal <$> structFields).
Proof.
  induction 1 as [|f l Hf Hl IH]; simpl; constructor; [|done].
  by apply resolved_returns.
Qed.

(** Distinct one-byte prefixes are prefix-free. *)
Lemma one_byte_prefix_free (table : StructValue) :
  Forall one_byte table -> NoDup table -> prefix_free table.
Proof.
  intros Hone Hnd i j a b Hij Ha Hb Hpre.
  rewrite Forall_forall in Hone.
  destruct (Hone a) as [Hna Hla]; [by eapply list_elem_of_lookup_2|].
  destruct (Hone b) as [Hnb Hlb]; [by eapply list_elem_of_lookup_2|].
  destruct a as [[|x [|? ?]]|], b as [[|y [|? ?]]|]; try done.
  simpl in Hpre. destruct Hpre as [k Hk]. simplify_eq/=.
  apply Hij. by eapply NoDup_lookup.
Qed.

(** C10: whatever the heap, [GetPrefixes] returns and does not panic; the
    struct it returns has one prefix per declared field, and each is a
    non-nil slice of exactly one byte. *)
Theorem registry_prefixes_one_byte (h : Heap) :
  exists prefixes h' table,
    GetPrefixes h = Returns (prefixes, h') /\
    h' !! prefixes = Some table /\
    length table = length DBPrefixes /\
    Forall (fun v : slice byte => v <> nil_slice /\ len v = 1) table.
Proof.
  eexists _, _, _. split; [apply GetPrefixes_returns|].
  split; [apply lookup_insert_eq|].
  split; [by rewrite length_fmap|].
  by_evaluation.
Qed.

(** C2: in the struct [GetPrefixes] returns, the prefix of a field is never
    a leading part of the prefix of another field; in particular no two
    fields have the same prefix. *)
Theorem registry_prefix_free (h : Heap) :
  exists prefixes h' table,
    GetPrefixes h = Returns (prefixes, h') /\
    h' !! prefixes = Some table /\
    forall i j a b, i <> j -> table !! i = Some a -> table !! j = Some b ->
      ~ elems a `prefix_of` elems b.
Proof.
  eexists _, _, _. split; [apply GetPrefixes_returns|].
  split; [apply lookup_insert_eq|].
  apply one_byte_prefix_free; by_evaluation.
Qed.

(** C7: a call of [GetPrefixes] and a second call after it return two
    different structs with the same fields: the prefix each declaration of
    [DBPrefixes] resolves to, in declaration order. The second call leaves
    the struct of the first as it was, and a call from any other heap gives
    the same table. *)
Theorem registry_deterministic (h : Heap) :
  exists p1 h1 p2 h2 table,
    GetPrefixes h = Returns (p1, h1) /\
    GetPrefixes h1 = Returns (p2, h2) /\
    p1 <> p2 /\
    h1 !! p1 = Some table /\
    h2 !! p1 = Some table /\
    h2 !! p2 = Some table /\
    Forall2 (fun field v => getPrefixIdValue json_Unmarshal field = Returns v)
      DBPrefixes table /\
    forall h0 : Heap, registry_of (GetPrefixes h0) = Some table.
Proof.
  set (table := resolved json_Unmarshal <$> DBPrefixes).
  set (p1 := fresh (dom h)). set (h1 := <[p1 := table]> h).
  set (p2 := fresh (dom h1)). set (h2 := <[p2 := table]> h1).
  assert (p1 <> p2) as Hne.
  { intros E. apply (is_fresh (dom h1)). fold p2. rewrite <- E.
    apply elem_of_dom. exists table. apply lookup_insert_eq. }
  exists p1, h1, p2, h2, table.
  split; [apply GetPrefixes_returns|].
  split; [apply GetPrefixes_returns|].
  split; [done|].
  split; [apply lookup_insert_eq|].
  split; [unfold h2; rewrite lookup_insert_ne by done; apply lookup_insert_eq|].
  split; [apply lookup_insert_eq|].
  split; [apply resolved_in_order, DBPrefixes_no_panic|].
  intros h0. rewrite GetPrefixes_returns. apply lookup_insert_eq.
Qed.

Lemma getPrefixIdValue_panics_iff Unmarshal field :
  is_panic (getPrefixIdValue Unmarshal field) <->
  prefix_id field = "-" \/
  (prefix_id field <> EmptyString /\ prefix_id field <> "[]" /\
   exists err, Unmarshal (prefix_id field) (Some []) = DecodeError err).
Proof.
  split.
  - intros Hp.
    destruct (decide (prefix_id field = "-")) as [Hdash|Hdash]; [by left|right].
    destruct (decide (prefix_id field = EmptyString)) as [He|He].
    { rewrite getPrefixIdValue_reserved in Hp; [done|by left]. }
    destruct (decide (prefix_id field = "[]")) as [Ha|Ha].
    { rewrite getPrefixIdValue_reserved in Hp; [done|by right]. }
    do 2 (split; [done|]).
    destruct (Unmarshal (prefix_id field) (Some [])) as [v|err] eqn:Hu;
      [|by exists err].
    revert Hp. unfold getPrefixIdValue. fold (prefix_id field).
    apply String.eqb_neq in Hdash as ->. apply String.eqb_neq in He as ->.
    apply String.eqb_neq in Ha as ->. simpl. by rewrite Hu.
  - intros [Hdash|(H1 & H2 & err & Herr)].
    + by rewrite getPrefixIdValue_dash.
    + destruct (decide (prefix_id field = "-")) as [Hdash|Hdash].
      * by rewrite getPrefixIdValue_dash.
      * by rewrite (getPrefixIdValue_decode_error _ _ err).
Qed.

(** C4, as the code has it: registry construction panics, and leaves no
    registry, exactly when one of the declarations is [-] or is a text,
    other than the empty text and the empty array, that the decoder rejects.
    The empty text and the empty array are accepted: the field resolves to
    the empty slice, which is not nil. *)
Theorem registry_construction_fails_fast Unmarshal structFields (h : Heap) :
  (is_panic (GetPrefixes_of Unmarshal structFields h) <->
   exists field,
     field ∈ structFields /\
     (prefix_id field = "-" \/
      (prefix_id field <> EmptyString /\ prefix_id field <> "[]" /\
       exists err, Unmarshal (prefix_id field) (Some []) = DecodeError err))) /\
  (is_panic (GetPrefixes_of Unmarshal structFields h) ->
   registry_of (GetPrefixes_of Unmarshal structFields h) = None) /\
  (forall field,
     prefix_id field = EmptyString \/ prefix_id field = "[]" ->
     getPrefixIdValue Unmarshal field = Returns (Some [])).
Proof.
  split; [|split].
  - split.
    + intros Hp.
      destruct (decide (Exists (fun f => is_panic (getPrefixIdValue Unmarshal f))
                          structFields)) as [Hex|Hnex].
      * apply Exists_exists in Hex as (field & Hin & Hf).
        exists field. split; [done|]. by apply getPrefixIdValue_panics_iff.
      * apply not_Exists_Forall in Hnex; [|apply _].
        by rewrite GetPrefixes_of_returns in Hp.
    + intros (field & Hin & Hbad).
      apply GetPrefixes_of_panics, Exists_exists. exists field.
      split; [done|]. by apply getPrefixIdValue_panics_iff.
  - by destruct (GetPrefixes_of Unmarshal structFields h).
  - apply getPrefixIdValue_reserved.
Qed.

Lemma registry_construction_fails_fast_witness :
  is_panic (GetPrefixes_of json_Unmarshal malformed_fields ∅) /\
  registry_of (GetPrefixes_of json_Unmarshal malformed_fields ∅) = None.
Proof.
  destruct (registry_construction_fails_fast json_Unmarshal malformed_fields ∅)
    as (Hiff & Hnone & _).
  assert (is_panic (GetPrefixes_of json_Unmarshal malformed_fields ∅)) as Hp.
  { apply Hiff. exists (mkField "PrefixHeights" [("prefix_id", "[256]")]).
    split; [by_evaluation|].
    right. split; [discriminate|]. split; [discriminate|].
    eexists. reflexivity. }
  split; [exact Hp|exact (Hnone Hp)].
Defined.

(** The reserved declarations do not make registry construction fail: the
    struct is returned, the reserved fields hold the empty slice. *)
Lemma reserved_declaration_is_accepted :
  ~ is_panic (getPrefixIdValue json_Unmarshal
                (mkField "PrefixReservedA" [("prefix_id", "[]")])) /\
  ~ is_panic (getPrefixIdValue json_Unmarshal
                (mkField "PrefixReservedB" [("prefix_id", EmptyString)])) /\
  ~ is_panic (GetPrefixes_of json_Unmarshal reserved_fields ∅) /\
  registry_of (GetPrefixes_of json_Unmarshal reserved_fields ∅)
    = Some [Some [Byte.x00]; Some []; Some []; Some []].
Proof.
  assert (Forall (fun f => ~ is_panic (getPrefixIdValue json_Unmarshal f))
            reserved_fields) as Hok by by_evaluation.
  rewrite (GetPrefixes_of_returns _ _ _ Hok). simpl.
  do 3 (split; [by intros []|]). apply lookup_insert_eq.
Qed.


(** * Further properties of the scan *)

(** ** The loop, whatever the order of the records *)

(** The loop either meets an unreadable record that starts with the prefix
    and returns its error with nil lists, or it collects a run of readable
    records that start with the prefix, up to a record that stops it. *)
Lemma scan_loop_cases pfx cur ks vs :
  (exists bad err,
     bad ∈ cur /\ starts_with pfx bad /\ readErr bad = Some err /\
     scan_loop pfx cur ks vs = (nil_slice, nil_slice, Some err)) \/
  (exists run rest keys vals,
     cur = run ++ rest /\
     Forall (starts_with pfx) run /\
     Forall (fun i => readErr i = None) run /\
     stops_scan pfx rest /\
     scan_loop pfx cur ks vs = (keys, vals, None) /\
     elems keys = elems ks ++ (Key <$> run) /\
     elems vals = elems vs ++ (Value <$> run)).
Proof.
  revert ks vs. induction cur as [|i cur IH]; intros ks vs.
  - right. exists [], [], ks, vs. simpl. by rewrite !app_nil_r.
  - simpl. destruct (bytes_HasPrefix (Key i) pfx) eqn:Hp.
    + apply bytes_HasPrefix_true in Hp. unfold ValueCopy.
      destruct (readErr i) as [e|] eqn:Hr.
      * left. exists i, e. repeat split; [left|done|done].
      * destruct (IH (append ks (copy_bytes (make_bytes (length (Key i))) (Key i)))
                     (append vs (Value i)))
          as [(bad & err & Hin & Hsw & He & Hs)
             |(run & rest & keys & vals & -> & Hsw & Hrd & Hstop & Hs & Hk & Hv)].
        -- left. exists bad, err. repeat split; [by right|done|done|done].
        -- right. exists (i :: run), rest, keys, vals.
           repeat split; try done; try (by constructor).
           ++ rewrite Hk, copy_bytes_make. simpl. by rewrite <- app_assoc.
           ++ rewrite Hv. simpl. by rewrite <- app_assoc.
    + apply bytes_HasPrefix_false in Hp.
      right. exists [], (i :: cur), ks, vs. simpl. by rewrite !app_nil_r.
Qed.

(** What follows a record that stops the scan is never looked at. *)
Lemma scan_loop_drop_rest pfx run rest ks vs :
  Forall (starts_with pfx) run -> stops_scan pfx rest ->
  scan_loop pfx (run ++ rest) ks vs = scan_loop pfx run ks vs.
Proof.
  revert ks vs. induction run as [|i run IH]; intros ks vs Hsw Hstop.
  - simpl. by rewrite scan_loop_stop.
  - apply Forall_cons in Hsw as [Hi Hsw]. simpl.
    apply bytes_HasPrefix_true in Hi as ->.
    destruct (ValueCopy i) as [valCopy [err|]]; [done|]. by apply IH.
Qed.

(** The error the loop returns is the first read error of the run. *)
Lemma scan_loop_error pfx run ks vs :
  Forall (starts_with pfx) run ->
  (scan_loop pfx run ks vs).2 = head (omap readErr run).
Proof.
  revert ks vs. induction run as [|i run IH]; intros ks vs Hsw; [done|].
  apply Forall_cons in Hsw as [Hi Hsw]. simpl.
  apply bytes_HasPrefix_true in Hi as ->. unfold ValueCopy.
  destruct (readErr i) as [e|]; [done|]. by apply IH.
Qed.

(** Over an ordered store the scan is the loop run over the records under
    the prefix, and over nothing else. *)
Lemma scan_ordered_local txn dbPrefix :
  Txn_ordered txn ->
  (_enumerateKeysForPrefixWithTxn txn dbPrefix).1 =
  scan_loop dbPrefix (records_under dbPrefix (snapshot txn)) nil_slice nil_slice.
Proof.
  intros Hord. apply Txn_ordered_strongly in Hord.
  destruct (seek_from_records_under dbPrefix _ Hord) as (rest & Hseek & Hstop).
  unfold _enumerateKeysForPrefixWithTxn. simpl. rewrite Hseek.
  apply scan_loop_drop_rest; [apply records_under_starts_with|done].
Qed.

(** X1: whatever the store holds and in whatever order, the keys and the
    values the scan returns go in pairs: the two lists have the same length,
    and the key and the value at the same position are those of one record
    of the store, a readable record whose key starts with the prefix. *)
Theorem scan_pairs_come_from_store txn dbPrefix :
  Forall2
    (fun key value =>
       exists item,
         item ∈ snapshot txn /\ starts_with dbPrefix item /\
         readErr item = None /\ Key item = key /\ Value item = value)
    (elems (_enumerateKeysForPrefixWithTxn txn dbPrefix).1.1.1)
    (elems (_enumerateKeysForPrefixWithTxn txn dbPrefix).1.1.2).
Proof.
  unfold _enumerateKeysForPrefixWithTxn. simpl.
  destruct (scan_loop_cases dbPrefix (seek_from dbPrefix (snapshot txn))
              nil_slice nil_slice)
    as [(bad & err & _ & _ & _ & ->)
       |(run & rest & keys & vals & Hcur & Hsw & Hrd & _ & -> & Hk & Hv)].
  - constructor.
  - simpl in *. rewrite Hk, Hv. apply Forall2_fmap, Forall2_same_length_lookup.
    split; [done|]. intros n i j Hi Hj. simplify_eq.
    exists i. repeat split.
    + apply (seek_from_elem dbPrefix). rewrite Hcur.
      apply elem_of_app. left. by eapply list_elem_of_lookup_2.
    + rewrite Forall_forall in Hsw. apply Hsw. by eapply list_elem_of_lookup_2.
    + rewrite Forall_forall in Hrd. apply Hrd. by eapply list_elem_of_lookup_2.
Qed.

(** X2: whatever the store holds, when the scan returns an error it returns
    nil for both lists, and the error is the read error of a record of the
    store whose key starts with the prefix. *)
Theorem scan_error_returns_nothing txn dbPrefix keys vals err :
  (_enumerateKeysForPrefixWithTxn txn dbPrefix).1 = (keys, vals, Some err) ->
  keys = nil_slice /\ vals = nil_slice /\
  exists bad,
    bad ∈ snapshot txn /\ starts_with dbPrefix bad /\ readErr bad = Some err.
Proof.
  unfold _enumerateKeysForPrefixWithTxn. simpl.
  destruct (scan_loop_cases dbPrefix (seek_from dbPrefix (snapshot txn))
              nil_slice nil_slice)
    as [(bad & e & Hin & Hsw & He & ->)
       |(run & rest & ks & vs & _ & _ & _ & _ & -> & _)]; [|done].
  intros [= <- <- <-]. do 2 (split; [done|]).
  exists bad. split; [by eapply seek_from_elem|done].
Qed.

Lemma scan_error_returns_nothing_witness :
  @nil_slice bytes = nil_slice /\ @nil_slice bytes = nil_slice /\
  exists bad,
    bad ∈ snapshot faulty_txn /\ starts_with [Byte.x00] bad /\
    readErr bad = Some (Error "value log: read failed").
Proof.
  apply (scan_error_returns_nothing faulty_txn [Byte.x00]). reflexivity.
Defined.

(** X3: over an ordered store the error the scan returns is the read error
    of the first unreadable record under the prefix, in key order, and nil
    when every record under the prefix is readable. *)
Theorem scan_error_is_first_read_error txn dbPrefix :
  Txn_ordered txn ->
  (_enumerateKeysForPrefixWithTxn txn dbPrefix).1.2 =
  head (omap readErr (records_under dbPrefix (snapshot txn))).
Proof.
  intros Hord. rewrite scan_ordered_local by done.
  apply scan_loop_error, records_under_starts_with.
Qed.

Lemma scan_error_is_first_read_error_witness :
  (_enumerateKeysForPrefixWithTxn faulty_txn [Byte.x00]).1.2 =
  head (omap readErr (records_under [Byte.x00] (snapshot faulty_txn))).
Proof.
  apply (scan_error_is_first_read_error faulty_txn [Byte.x00]). by_evaluation.
Defined.

(** X4: over ordered stores the result of a scan depends on the records
    under the prefix only: two stores that hold the same records under the
    prefix give the same result, whatever else they hold, readable or not. *)
Theorem scan_ignores_other_records txn1 txn2 dbPrefix :
  Txn_ordered txn1 -> Txn_ordered txn2 ->
  records_under dbPrefix (snapshot txn1) = records_under dbPrefix (snapshot txn2) ->
  (_enumerateKeysForPrefixWithTxn txn1 dbPrefix).1 =
  (_enumerateKeysForPrefixWithTxn txn2 dbPrefix).1.
Proof.
  intros H1 H2 Heq. rewrite !scan_ordered_local by done. by rewrite Heq.
Qed.

Lemma scan_ignores_other_records_witness :
  (_enumerateKeysForPrefixWithTxn example_txn [Byte.x01]).1 =
  (_enumerateKeysForPrefixWithTxn faulty_txn [Byte.x01]).1.
Proof.
  apply (scan_ignores_other_records example_txn faulty_txn [Byte.x01]);
    [by_evaluation|by_evaluation|reflexivity].
Defined.

(** ** Scans of several prefixes *)

Lemma scan_keys_start_with txn dbPrefix key :
  key ∈ elems (_enumerateKeysForPrefixWithTxn txn dbPrefix).1.1.1 ->
  dbPrefix `prefix_of` key.
Proof.
  unfold _enumerateKeysForPrefixWithTxn. simpl.
  destruct (scan_loop_cases dbPrefix (seek_from dbPrefix (snapshot txn))
              nil_slice nil_slice)
    as [(bad & err & _ & _ & _ & ->)
       |(run & rest & keys & vals & _ & Hsw & _ & _ & -> & Hk & _)]; simpl.
  - by intros ?%not_elem_of_nil.
  - rewrite Hk. simpl. intros (i & -> & Hi)%list_elem_of_fmap.
    rewrite Forall_forall in Hsw. by apply Hsw.
Qed.

Lemma records_under_longer_prefix P S items :
  Key <$> records_under (P ++ S) items =
  filter (fun key => P ++ S `prefix_of` key) (Key <$> records_under P items).
Proof.
  unfold records_under. induction items as [|i l IH]; [done|].
  destruct (decide (starts_with (P ++ S) i)) as [HPS|HPS].
  - assert (starts_with P i) as HP by (by eapply prefix_app_l).
    rewrite (filter_cons_True (starts_with (P ++ S)) i l) by done.
    rewrite (filter_cons_True (starts_with P) i l) by done. csimpl.
    rewrite (filter_cons_True _ (Key i)) by done. by rewrite IH.
  - rewrite (filter_cons_False (starts_with (P ++ S)) i l) by done.
    destruct (decide (starts_with P i)) as [HP|HP].
    + rewrite (filter_cons_True (starts_with P) i l) by done. csimpl.
      by rewrite (filter_cons_False _ (Key i)).
    + by rewrite (filter_cons_False (starts_with P) i l).
Qed.

(** X5: over an ordered store whose values under a prefix P can be read,
    the scan of a longer prefix P||S succeeds and returns, of the keys the
    scan of P returns, those that start with P||S, in the same order. *)
Theorem scan_longer_prefix_refines txn P S :
  Txn_ordered txn ->
  Forall (fun i => readErr i = None) (records_under P (snapshot txn)) ->
  (_enumerateKeysForPrefixWithTxn txn (P ++ S)).1.2 = None /\
  elems (_enumerateKeysForPrefixWithTxn txn (P ++ S)).1.1.1 =
  filter (fun key => P ++ S `prefix_of` key)
    (elems (_enumerateKeysForPrefixWithTxn txn P).1.1.1).
Proof.
  intros Hord Hread.
  assert (Forall (fun i => readErr i = None)
            (records_under (P ++ S) (snapshot txn))) as Hread'.
  { rewrite Forall_forall in Hread |- *. intros i Hi. apply Hread.
    apply list_elem_of_filter in Hi as [Hsw Hin].
    apply list_elem_of_filter. split; [by eapply prefix_app_l|done]. }
  destruct (scan_ordered txn P Hord Hread) as (k1 & v1 & r1 & E1 & Hk1 & _).
  destruct (scan_ordered txn (P ++ S) Hord Hread') as (k2 & v2 & r2 & E2 & Hk2 & _).
  rewrite E1, E2. simpl. split; [done|].
  rewrite Hk1, Hk2. apply records_under_longer_prefix.
Qed.

Lemma scan_longer_prefix_refines_witness :
  (_enumerateKeysForPrefixWithTxn example_txn ([Byte.x00] ++ [Byte.x02])).1.2 = None /\
  elems (_enumerateKeysForPrefixWithTxn example_txn ([Byte.x00] ++ [Byte.x02])).1.1.1 =
  filter (fun key => [Byte.x00] ++ [Byte.x02] `prefix_of` key)
    (elems (_enumerateKeysForPrefixWithTxn example_txn [Byte.x00]).1.1.1).
Proof.
  apply (scan_longer_prefix_refines example_txn [Byte.x00] [Byte.x02]);
    by_evaluation.
Defined.

(** X6: whatever the store holds, when neither of two prefixes is a leading
    part of the other, no key is returned by the scans of both. *)
Theorem scans_of_unrelated_prefixes_are_disjoint txn P Q key :
  ~ P `prefix_of` Q -> ~ Q `prefix_of` P ->
  key ∈ elems (_enumerateKeysForPrefixWithTxn txn P).1.1.1 ->
  key ∉ elems (_enumerateKeysForPrefixWithTxn txn Q).1.1.1.
Proof.
  intros HPQ HQP HP HQ.
  apply scan_keys_start_with in HP. apply scan_keys_start_with in HQ.
  destruct (prefix_weak_total P Q key HP HQ); done.
Qed.

Lemma scans_of_unrelated_prefixes_are_disjoint_witness :
  [Byte.x00; Byte.x01] ∉
    elems (_enumerateKeysForPrefixWithTxn example_txn [Byte.x01]).1.1.1.
Proof.
  apply (scans_of_unrelated_prefixes_are_disjoint example_txn
           [Byte.x00] [Byte.x01] [Byte.x00; Byte.x01]); by_evaluation.
Defined.

(** X7: the scans of the prefixes of two different fields of the struct
    [GetPrefixes] returns have no key in common, whatever the store holds. *)
Theorem registry_scans_are_disjoint (h : Heap) table txn i j a b key :
  registry_of (GetPrefixes h) = Some table ->
  i <> j -> table !! i = Some a -> table !! j = Some b ->
  key ∈ elems (_enumerateKeysForPrefixWithTxn txn (elems a)).1.1.1 ->
  key ∉ elems (_enumerateKeysForPrefixWithTxn txn (elems b)).1.1.1.
Proof.
  rewrite GetPrefixes_returns. simpl. rewrite lookup_insert_eq.
  intros [= <-] Hij Ha Hb HP HQ.
  assert (prefix_free (resolved json_Unmarshal <$> DBPrefixes)) as Hfree
    by (apply one_byte_prefix_free; by_evaluation).
  apply scan_keys_start_with in HP. apply scan_keys_start_with in HQ.
  destruct (prefix_weak_total _ _ key HP HQ) as [H|H].
  - by apply (Hfree i j a b).
  - by apply (Hfree j i b a).
Qed.

Lemma registry_scans_are_disjoint_witness :
  [Byte.x00; Byte.x01] ∉
    elems (_enumerateKeysForPrefixWithTxn example_txn [Byte.x01]).1.1.1.
Proof.
  apply (registry_scans_are_disjoint ∅
           (resolved json_Unmarshal <$> DBPrefixes) example_txn
           0 1 (Some [Byte.x00]) (Some [Byte.x01]) [Byte.x00; Byte.x01]).
  - reflexivity.
  - discriminate.
  - reflexivity.
  - reflexivity.
  - by_evaluation.
Defined.

(** X8: a field whose declaration is the empty text or the empty array
    resolves to the empty prefix, and the scan of that prefix over an
    ordered store whose values can be read returns every record of the
    store. *)
Theorem reserved_declaration_scans_whole_store Unmarshal field txn :
  prefix_id field = EmptyString \/ prefix_id field = "[]" ->
  Txn_ordered txn ->
  Forall (fun i => readErr i = None) (snapshot txn) ->
  exists v keys vals,
    getPrefixIdValue Unmarshal field = Returns v /\
    (_enumerateKeysForPrefixWithTxn txn (elems v)).1 = (keys, vals, None) /\
    elems keys = Key <$> snapshot txn /\
    elems vals = Value <$> snapshot txn.
Proof.
  intros Hres Hord Hread. exists (Some []).
  pose proof (records_under_empty_prefix (snapshot txn)) as Hall.
  destruct (scan_ordered txn [] Hord) as (keys & vals & rest & E & Hk & Hv & _);
    [by rewrite Hall|].
  rewrite Hall in Hk, Hv. exists keys, vals.
  split; [by apply getPrefixIdValue_reserved|done].
Qed.

Lemma reserved_declaration_scans_whole_store_witness :
  exists v keys vals,
    getPrefixIdValue json_Unmarshal
      (mkField "PrefixReservedA" [("prefix_id", "[]")]) = Returns v /\
    (_enumerateKeysForPrefixWithTxn example_txn (elems v)).1 = (keys, vals, None) /\
    elems keys = Key <$> snapshot example_txn /\
    elems vals = Value <$> snapshot example_txn.
Proof.
  apply (reserved_declaration_scans_whole_store json_Unmarshal
           (mkField "PrefixReservedA" [("prefix_id", "[]")]) example_txn).
  - by right.
  - by_evaluation.
  - by_evaluation.
Defined.

(** * Further properties of the registry *)

(** X9: when no declaration of a struct type makes [getPrefixIdValue]
    panic, [GetPrefixes] returns a struct that was not on the heap before;
    its fields are the prefixes the declarations resolve to, one per field
    and in declaration order, and every struct that was on the heap is left
    as it was. *)
Theorem GetPrefixes_of_fills_fresh_struct Unmarshal structFields (h : Heap) :
  Forall (fun f => ~ is_panic (getPrefixIdValue Unmarshal f)) structFields ->
  exists prefixes h' table,
    GetPrefixes_of Unmarshal structFields h = Returns (prefixes, h') /\
    h !! prefixes = None /\
    h' !! prefixes = Some table /\
    Forall2 (fun f v => getPrefixIdValue Unmarshal f = Returns v) structFields table /\
    forall q, q <> prefixes -> h' !! q = h !! q.
Proof.
  intros Hok. eexists _, _, _.
  split; [by apply GetPrefixes_of_returns|].
  split; [apply not_elem_of_dom, is_fresh|].
  split; [apply lookup_insert_eq|].
  split; [by apply resolved_in_order|].
  intros q Hq. by rewrite lookup_insert_ne.
Qed.

Lemma GetPrefixes_of_fills_fresh_struct_witness :
  exists prefixes h' table,
    GetPrefixes_of json_Unmarshal reserved_fields ∅ = Returns (prefixes, h') /\
    (∅ : Heap) !! prefixes = None /\
    h' !! prefixes = Some table /\
    Forall2 (fun f v => getPrefixIdValue json_Unmarshal f = Returns v)
      reserved_fields table /\
    forall q, q <> prefixes -> h' !! q = (∅ : Heap) !! q.
Proof.
  apply (GetPrefixes_of_fills_fresh_struct json_Unmarshal reserved_fields ∅).
  by_evaluation.
Defined.

(** X10: [GetPrefixes] goes through the fields in declaration order and
    panics with the error of the first declaration that [getPrefixIdValue]
    rejects, whatever the declarations after it. *)
Theorem GetPrefixes_of_panics_with_first_error Unmarshal before field after e
    (h : Heap) :
  Forall (fun f => ~ is_panic (getPrefixIdValue Unmarshal f)) before ->
  getPrefixIdValue Unmarshal field = Panics e ->
  GetPrefixes_of Unmarshal (before ++ field :: after) h = Panics e.
Proof.
  intros Hok Hp. unfold GetPrefixes_of.
  by rewrite (GetPrefixes_loop_panics Unmarshal _ _ before field after e).
Qed.

Lemma GetPrefixes_of_panics_with_first_error_witness :
  GetPrefixes_of json_Unmarshal
    ([mkField "PrefixBlocks" [("prefix_id", "[0]")]] ++
     mkField "PrefixHeights" [("prefix_id", "[256]")] ::
     [mkField "PrefixTip" [("prefix_id", "-")]]) ∅
  = Panics (Error "json: cannot unmarshal into Go value of type []uint8").
Proof.
  apply (GetPrefixes_of_panics_with_first_error json_Unmarshal
           [mkField "PrefixBlocks" [("prefix_id", "[0]")]]
           (mkField "PrefixHeights" [("prefix_id", "[256]")])
           [mkField "PrefixTip" [("prefix_id", "-")]]).
  - by_evaluation.
  - reflexivity.
Defined.

(** * Properties of the driver *)

(** Over fields none of which is the mempool field, the loop writes the
    line of each field and nothing else. *)
Lemma main_loop_plain structFields (prefixElements : StructValue) n i txn :
  i + n = length structFields ->
  length prefixElements = length structFields ->
  Forall (fun f => Name f <> "PrefixMempoolTxnHashToMsgDeSoTxn") (drop i structFields) ->
  main_loop structFields prefixElements n i txn =
  zip_with field_line (drop i structFields) (drop i prefixElements).
Proof.
  revert i. induction n as [|n IH]; intros i Hn Hlen Hne; simpl.
  - by rewrite (drop_ge structFields) by lia.
  - destruct (lookup_lt_is_Some_2 structFields i) as [f Hf]; [lia|].
    destruct (lookup_lt_is_Some_2 prefixElements i) as [v Hv]; [lia|].
    rewrite Hf, Hv. rewrite (drop_S _ _ _ Hf) in Hne |- *.
    rewrite (drop_S _ _ _ Hv). apply Forall_cons in Hne as [Hnf Hne].
    apply String.eqb_neq in Hnf as ->. simpl. f_equal. apply IH; [lia|done|done].
Qed.

(** Up to the mempool field the loop writes the line of each field. *)
Lemma main_loop_before_target structFields (prefixElements : StructValue)
    before t after :
  Forall (fun f => Name f <> "PrefixMempoolTxnHashToMsgDeSoTxn") before ->
  length prefixElements = length structFields ->
  forall n i txn,
    drop i structFields = before ++ t :: after ->
    i + n = length structFields ->
    main_loop structFields prefixElements n i txn =
    zip_with field_line before (drop i prefixElements) ++
    main_loop structFields prefixElements (n - length before) (i + length before) txn.
Proof.
  intros Hne Hlen. induction Hne as [|g before Hg Hne IH]; intros n i txn Hd Hn.
  - simpl. by rewrite Nat.sub_0_r, Nat.add_0_r.
  - assert (structFields !! i = Some g) as Hf.
    { rewrite <- (Nat.add_0_r i), <- lookup_drop. by rewrite Hd. }
    pose proof (lookup_lt_Some _ _ _ Hf) as Hi.
    destruct (lookup_lt_is_Some_2 prefixElements i) as [v Hv]; [lia|].
    destruct n as [|n]; [lia|]. simpl main_loop. rewrite Hf, Hv.
    apply String.eqb_neq in Hg as ->. simpl negb. cbv iota.
    rewrite (drop_S _ _ _ Hv). simpl. f_equal.
    rewrite (drop_S _ _ _ Hf) in Hd. injection Hd as Hd.
    rewrite (IH n (S i) txn Hd) by lia.
    by replace (i + S (length before)) with (S i + length before) by lia.
Qed.

(** At the mempool field the loop writes its line and scans its prefix. *)
Lemma main_loop_target structFields (prefixElements : StructValue) n i txn t v :
  structFields !! i = Some t ->
  prefixElements !! i = Some v ->
  Name t = "PrefixMempoolTxnHashToMsgDeSoTxn" ->
  main_loop structFields prefixElements (S n) i txn =
  field_line t v ::
  match _enumerateKeysForPrefixWithTxn txn (elems v) with
  | ((_, _, Some err), _) => []
  | ((keys, _, None), txn') =>
      key_lines (elems keys) ++
      Log_Length (len keys) :: main_loop structFields prefixElements n (S i) txn'
  end.
Proof. intros Hf Hv Hname. simpl main_loop. by rewrite Hf, Hv, Hname. Qed.

(** What the scan of an ordered store returns: the keys of the records
    under the prefix when all of them are readable, an error otherwise. *)
Lemma scan_ordered_outcome txn dbPrefix :
  Txn_ordered txn ->
  exists keys vals err txn',
    _enumerateKeysForPrefixWithTxn txn dbPrefix = ((keys, vals, err), txn') /\
    if decide (Forall (fun i => readErr i = None)
                 (records_under dbPrefix (snapshot txn)))
    then err = None /\ elems keys = Key <$> records_under dbPrefix (snapshot txn)
    else err <> None.
Proof.
  intros Hord.
  destruct (_enumerateKeysForPrefixWithTxn txn dbPrefix) as [[[keys vals] err] txn']
    eqn:Hscan.
  exists keys, vals, err, txn'. split; [done|].
  assert ((_enumerateKeysForPrefixWithTxn txn dbPrefix).1 = (keys, vals, err))
    as Hres by (by rewrite Hscan).
  destruct (decide _) as [Hread|Hread].
  - destruct (scan_ordered txn dbPrefix Hord Hread)
      as (k & v & rest & E & Hk & _).
    rewrite Hres in E. by injection E as -> -> ->.
  - apply not_Forall_Exists in Hread; [|apply _].
    assert (Exists (fun i => readErr i <> None)
              (records_under dbPrefix (snapshot txn))) as Hbad.
    { apply Exists_exists. apply Exists_exists in Hread as (i & Hi & Hne).
      by exists i. }
    apply Txn_ordered_strongly in Hord.
    destruct (seek_from_records_under dbPrefix _ Hord) as (rest & Hseek & _).
    destruct (scan_loop_read_error dbPrefix _ rest nil_slice nil_slice
                (records_under_starts_with dbPrefix (snapshot txn)) Hbad)
      as (bad & e & _ & _ & Hs).
    revert Hres. unfold _enumerateKeysForPrefixWithTxn. simpl.
    rewrite Hseek, Hs. by intros [= <- <- <-].
Qed.

(** What [main] writes, for an ordered database. *)
Lemma main_output db (h : Heap) :
  Sorted key_lt db ->
  main (inl db) h =
  (take 38 registry_lines ++
   (if decide (Forall (fun i => readErr i = None) (records_under mempool_prefix db))
    then key_lines (Key <$> records_under mempool_prefix db) ++
         Log_Length (length (records_under mempool_prefix db)) ::
         drop 38 registry_lines
    else []),
   Exited 0).
Proof.
  intros Hord. unfold main. rewrite GetPrefixes_returns, lookup_insert_eq.
  set (table := resolved json_Unmarshal <$> DBPrefixes).
  f_equal.
  rewrite (main_loop_before_target DBPrefixes table (take 37 DBPrefixes)
             (mkField "PrefixMempoolTxnHashToMsgDeSoTxn" [("prefix_id", "[38]")])
             (drop 38 DBPrefixes));
    [|by_evaluation|reflexivity|reflexivity|reflexivity].
  change (length table - length (take 37 DBPrefixes)) with (S 39).
  change (0 + length (take 37 DBPrefixes)) with 37.
  rewrite (main_loop_target DBPrefixes table 39 37 (mkTxn db 0)
             (mkField "PrefixMempoolTxnHashToMsgDeSoTxn" [("prefix_id", "[38]")])
             (Some [Byte.x26]));
    [|reflexivity|reflexivity|reflexivity].
  change (zip_with field_line (take 37 DBPrefixes) (drop 0 table) ++
          field_line (mkField "PrefixMempoolTxnHashToMsgDeSoTxn"
                        [("prefix_id", "[38]")]) (Some [Byte.x26]) :: ?rest)
    with (take 38 registry_lines ++ rest).
  f_equal.
  destruct (scan_ordered_outcome (mkTxn db 0) mempool_prefix Hord)
    as (keys & vals & err & txn' & Hscan & Hcase).
  change (elems (Some [Byte.x26])) with mempool_prefix. rewrite Hscan.
  simpl snapshot in Hcase. destruct (decide _) as [Hread|Hread].
  - destruct Hcase as [-> Hk]. unfold len. rewrite Hk, length_fmap.
    apply (f_equal (app _)), (f_equal (cons _)).
    rewrite main_loop_plain; [reflexivity|reflexivity|reflexivity|by_evaluation].
  - by destruct err.
Qed.

Example mempool_field_position :
  DBPrefixes !! 37 =
    Some (mkField "PrefixMempoolTxnHashToMsgDeSoTxn" [("prefix_id", "[38]")]) /\
  registry_lines !! 37 =
    Some (Printf_Field "PrefixMempoolTxnHashToMsgDeSoTxn" mempool_prefix) /\
  length registry_lines = 77.
Proof. by repeat split. Qed.

(** X11: over an ordered database whose mempool values can be read, [main]
    writes the line of each field up to the mempool field, then one line
    per key under the mempool prefix, in key order and with the index of the
    key (not its value), then the number of keys, then the lines of the
    remaining fields, and exits with code 0. *)
Theorem main_lists_fields_and_mempool_keys db (h : Heap) :
  Sorted key_lt db ->
  Forall (fun i => readErr i = None) (records_under mempool_prefix db) ->
  main (inl db) h =
  (take 38 registry_lines ++
   key_lines (Key <$> records_under mempool_prefix db) ++
   Log_Length (length (records_under mempool_prefix db)) ::
   drop 38 registry_lines,
   Exited 0).
Proof.
  intros Hord Hread. rewrite main_output by done. by rewrite decide_True.
Qed.

Lemma main_lists_fields_and_mempool_keys_witness :
  main (inl mempool_store) ∅ =
  (take 38 registry_lines ++
   [Log_Key [Byte.x26; Byte.x01] 0; Log_Key [Byte.x26; Byte.x02] 1] ++
   Log_Length 2 :: drop 38 registry_lines,
   Exited 0).
Proof.
  apply (main_lists_fields_and_mempool_keys mempool_store ∅); by_evaluation.
Defined.

(** X12: over an ordered database in which a value under the mempool prefix
    cannot be read, [main] writes the lines of the fields up to the mempool
    field and returns: it writes no key, no count, no error and none of the
    remaining fields, and exits with code 0. *)
Theorem main_read_error_returns_silently db (h : Heap) :
  Sorted key_lt db ->
  Exists (fun i => readErr i <> None) (records_under mempool_prefix db) ->
  main (inl db) h = (take 38 registry_lines, Exited 0).
Proof.
  intros Hord Hbad. rewrite main_output by done.
  rewrite decide_False; [by rewrite app_nil_r|].
  intros Hread. apply Exists_exists in Hbad as (i & Hi & Hne).
  rewrite Forall_forall in Hread. by apply Hne, Hread.
Qed.

Lemma main_read_error_returns_silently_witness :
  main (inl faulty_mempool_store) ∅ = (take 38 registry_lines, Exited 0).
Proof.
  apply (main_read_error_returns_silently faulty_mempool_store ∅);
    by_evaluation.
Defined.

(** X13: what [main] writes depends on the keys under the mempool prefix
    and on whether their values can be read, and on nothing else in the
    database: not on the values, not on the records of other collections,
    nor on the heap. *)
Theorem main_depends_on_mempool_keys_only db1 db2 (h1 h2 : Heap) :
  Sorted key_lt db1 -> Sorted key_lt db2 ->
  Key <$> records_under mempool_prefix db1 = Key <$> records_under mempool_prefix db2 ->
  (Forall (fun i => readErr i = None) (records_under mempool_prefix db1) <->
   Forall (fun i => readErr i = None) (records_under mempool_prefix db2)) ->
  main (inl db1) h1 = main (inl db2) h2.
Proof.
  intros H1 H2 Hkeys Hread. rewrite !main_output by done.
  assert (length (records_under mempool_prefix db1) =
          length (records_under mempool_prefix db2)) as Hlen.
  { by rewrite <- (length_fmap Key), Hkeys, length_fmap. }
  destruct (decide (Forall _ (records_under mempool_prefix db1))) as [Hr|Hr].
  - rewrite decide_True by (by apply Hread). by rewrite Hkeys, Hlen.
  - rewrite decide_False; [done|]. intros Hr2. by apply Hr, Hread.
Qed.

Lemma main_depends_on_mempool_keys_only_witness :
  main (inl mempool_store) ∅ = main (inl other_mempool_store) ∅.
Proof.
  apply (main_depends_on_mempool_keys_only mempool_store other_mempool_store ∅ ∅).
  - by_evaluation.
  - by_evaluation.
  - reflexivity.
  - split; intros _; by_evaluation.
Defined.
